(** * html-parser: a shallow embedding of [src/lib/parser.ts]

    The parser is a recursive-descent reader over a mutable cursor
    ([ParseContext.source]); every lexical decision is taken by a JavaScript
    regular expression.  The development has five parts:

    - [Js]      : JavaScript strings (sequences of UTF-16 code units) and the
                  string methods the parser calls ([slice], [trim], [split],
                  [includes]);
    - [RegExp]  : a backtracking matcher for the fragment of ECMAScript
                  regular expressions the parser uses, with greedy and lazy
                  quantifiers, capture groups, [exec], [test], global [match]
                  and global [replace];
    - [Parser]  : the functions of [parser.ts], one definition per function,
                  in a state-and-exception monad over the cursor;
    - [Spec]    : the vocabulary of the properties, plain list functions
                  that do not go through the matcher;
    - the lemmas on the matcher and on each function, and the theorems on
      the parser. *)

From Stdlib Require Import String Ascii NArith Arith Bool Lia List.
Import ListNotations.

Set Implicit Arguments.

(* ================================================================= *)
(** ** JavaScript strings *)

Module Js.

(** A JavaScript string is a sequence of UTF-16 code units. *)
Definition char := N.
Definition jsstring := list char.

(** String literals of the development: the code units of an ASCII text. *)
Definition lit (s : string) : jsstring :=
  map N_of_ascii (list_ascii_of_string s).

(** The double quote, which a Rocq string literal cannot hold undoubled. *)
Definition dq : jsstring := [34%N].

Definition char_eqb (a b : char) : bool := N.eqb a b.

Fixpoint eqb (a b : jsstring) : bool :=
  match a, b with
  | [], [] => true
  | x :: a', y :: b' => char_eqb x y && eqb a' b'
  | _, _ => false
  end.

(** [s.slice(n)] for [n >= 0]: the string without its first [n] code units,
    empty when [n] passes the end. *)
Definition slice (n : nat) (s : jsstring) : jsstring := skipn n s.

(** [s.includes(c)] for a one-character needle. *)
Definition includes (c : char) (s : jsstring) : bool :=
  existsb (char_eqb c) s.

(** [s.split(c)] for a one-character separator: the pieces between the
    occurrences of [c]; always at least one piece. *)
Fixpoint split (c : char) (s : jsstring) : list jsstring :=
  match s with
  | [] => [[]]
  | x :: s' =>
      if char_eqb x c then [] :: split c s'
      else match split c s' with
           | p :: ps => (x :: p) :: ps
           | [] => [[x]]
           end
  end.

(** The code units [String.prototype.trim] removes: ECMAScript WhiteSpace
    and LineTerminator. *)
Definition is_trim_space (c : char) : bool :=
  existsb (N.eqb c)
    [9; 10; 11; 12; 13; 32; 160; 5760;
     8192; 8193; 8194; 8195; 8196; 8197; 8198; 8199; 8200; 8201; 8202;
     8232; 8233; 8239; 8287; 12288; 65279]%N.

Fixpoint trimStart (s : jsstring) : jsstring :=
  match s with
  | c :: s' => if is_trim_space c then trimStart s' else s
  | [] => []
  end.

Definition trimEnd (s : jsstring) : jsstring := rev (trimStart (rev s)).

Definition trim (s : jsstring) : jsstring := trimEnd (trimStart s).

(** Truthiness of a string: [if (text)] holds for the non-empty ones. *)
Definition truthy (s : jsstring) : bool :=
  match s with [] => false | _ :: _ => true end.

End Js.

Import Js.

(* ================================================================= *)
(** ** Regular expressions *)

Module RegExp.

(** A character class is its membership test on code units.  The classes
    below are the ones written in [parser.ts].  Under the [i] flag a code
    unit matches a class when its canonical (upper-case) form is the
    canonical form of a member; without the [u] flag canonicalisation never
    maps a non-ASCII code unit to an ASCII one, so for the ASCII classes of
    this program [i] only adds the other case of the letters. *)
Definition cclass := char -> bool.

Definition between (lo hi : N) (c : char) : bool :=
  (N.leb lo c && N.leb c hi)%bool.

(** A literal character. *)
Definition chr (a : ascii) : cclass := fun c => N.eqb c (N_of_ascii a).

(** The class of the listed code units. *)
Definition one_of (l : list N) : cclass := fun c => existsb (N.eqb c) l.

(** [[a-z0-9]] under the [i] flag. *)
Definition alnum_i : cclass := fun c =>
  between 97 122 c || between 65 90 c || between 48 57 c.

(** ECMAScript LineTerminator: LF, CR, U+2028, U+2029. *)
Definition line_terminator : cclass := one_of [10; 13; 8232; 8233]%N.

(** [.] (no [s] flag): anything but a line terminator. *)
Definition dot : cclass := fun c => negb (line_terminator c).

(** [[\t\r\n\f ]] *)
Definition space : cclass := one_of [9; 13; 10; 12; 32]%N.

(** [[^\t\r\n\f />]] *)
Definition name_char : cclass := fun c =>
  negb (one_of [9; 13; 10; 12; 32; 47; 62]%N c).

(** [[^<]] *)
Definition not_lt : cclass := fun c => negb (N.eqb c 60).

(** The class of an attribute key: anything but a double quote, a single
    quote or a space. *)
Definition key_char : cclass := fun c => negb (one_of [34; 39; 32]%N c).

(** The double quote, and anything but the double quote. *)
Definition dquote : cclass := fun c => N.eqb c 34.
Definition not_dquote : cclass := fun c => negb (N.eqb c 34).

(** A double or a single quote. *)
Definition any_quote : cclass := one_of [34; 39]%N.

Inductive greed := Greedy | Lazy.

(** The atoms of a pattern, in source order.  Every quantifier of the
    program applies to a single character class. *)
Inductive atom : Type :=
| Char (c : cclass)               (* one character of the class *)
| Star (g : greed) (c : cclass)   (* zero or more, greedy or lazy *)
| Plus (g : greed) (c : cclass)   (* one or more, greedy or lazy *)
| LParen                          (* opens a capture group *)
| RParen                          (* closes a capture group *)
| Dollar.                         (* end of input *)

Definition pattern := list atom.

(** A continuation is the matcher of the rest of the pattern: from the
    remaining input to the text each remaining atom matched. *)
Definition cont := jsstring -> option (list jsstring).

Definition piece (p : jsstring) (r : option (list jsstring)) :
  option (list jsstring) :=
  match r with Some ps => Some (p :: ps) | None => None end.

(** Greedy star followed by [k]: backtracks from the longest run. *)
Fixpoint star_greedy (c : cclass) (k : cont) (s : jsstring) :
  option (jsstring * list jsstring) :=
  match s with
  | x :: s' =>
      if c x then
        match star_greedy c k s' with
        | Some (p, ps) => Some (x :: p, ps)
        | None => match k s with Some ps => Some ([], ps) | None => None end
        end
      else match k s with Some ps => Some ([], ps) | None => None end
  | [] => match k [] with Some ps => Some ([], ps) | None => None end
  end.

(** Lazy star followed by [k]: backtracks from the shortest run. *)
Fixpoint star_lazy (c : cclass) (k : cont) (s : jsstring) :
  option (jsstring * list jsstring) :=
  match k s with
  | Some ps => Some ([], ps)
  | None =>
      match s with
      | x :: s' =>
          if c x then
            match star_lazy c k s' with
            | Some (p, ps) => Some (x :: p, ps)
            | None => None
            end
          else None
      | [] => None
      end
  end.

Definition star (g : greed) : cclass -> cont -> jsstring ->
                              option (jsstring * list jsstring) :=
  match g with Greedy => star_greedy | Lazy => star_lazy end.

Definition join (r : option (jsstring * list jsstring)) :
  option (list jsstring) :=
  match r with Some (p, ps) => Some (p :: ps) | None => None end.

(** Matching a pattern at the head of the input.  The result lists, atom by
    atom, the text each atom matched (parentheses and the end anchor match
    the empty text); [None] when every alternative of the backtracking fails. *)
Fixpoint exec_at (r : pattern) : cont :=
  match r with
  | [] => fun _ => Some []
  | a :: r' =>
      let k := exec_at r' in
      match a with
      | Char c => fun s =>
          match s with
          | x :: s' => if c x then piece [x] (k s') else None
          | [] => None
          end
      | Star g c => fun s => join (star g c k s)
      | Plus g c => fun s =>
          match s with
          | x :: s' =>
              if c x then
                match star g c k s' with
                | Some (p, ps) => Some ((x :: p) :: ps)
                | None => None
                end
              else None
          | [] => None
          end
      | LParen | RParen => fun s => piece [] (k s)
      | Dollar => fun s =>
          match s with
          | [] => piece [] (k [])
          | _ :: _ => None
          end
      end
  end.

(** The captures of a match: for each parenthesis pair, in order, the
    concatenation of the pieces between its parentheses. *)
Fixpoint captures (r : pattern) (ps : list jsstring) (cur : option jsstring)
  : list jsstring :=
  match r, ps with
  | LParen :: r', _ :: ps' => captures r' ps' (Some [])
  | RParen :: r', _ :: ps' =>
      match cur with
      | Some g => g :: captures r' ps' None
      | None => captures r' ps' None
      end
  | _ :: r', p :: ps' =>
      captures r' ps'
        (match cur with Some g => Some (g ++ p) | None => None end)
  | _, _ => []
  end.

(** The array [exec] returns: [m[0]] is the whole match, [m[i]] capture
    [i]; [m[i]] of a missing capture is [undefined]. *)
Record RegExpExecArray := {
  index : nat;
  whole : jsstring;
  groups : list jsstring
}.

Definition group (i : nat) (m : RegExpExecArray) : option jsstring :=
  match i with
  | O => Some (whole m)
  | S j => nth_error (groups m) j
  end.

Definition mk_match (r : pattern) (i : nat) (ps : list jsstring) :=
  {| index := i; whole := List.concat ps; groups := captures r ps None |}.

(** [/^r/.exec(s)]: a pattern anchored at the start matches at index 0 or
    not at all. *)
Definition exec_anchored (r : pattern) (s : jsstring) :
  option RegExpExecArray :=
  match exec_at r s with
  | Some ps => Some (mk_match r 0 ps)
  | None => None
  end.

(** [/r/.exec(s)] from [lastIndex = 0]: the match at the leftmost index
    where one exists, the end of the input included. *)
Fixpoint exec_from (r : pattern) (i : nat) (s : jsstring) :
  option RegExpExecArray :=
  match exec_at r s with
  | Some ps => Some (mk_match r i ps)
  | None =>
      match s with
      | _ :: s' => exec_from r (S i) s'
      | [] => None
      end
  end.

Definition exec (r : pattern) (s : jsstring) : option RegExpExecArray :=
  exec_from r 0 s.

(** [/r/.test(s)] *)
Definition test (r : pattern) (s : jsstring) : bool :=
  match exec r s with Some _ => true | None => false end.

(** Where a global search resumes after a match: at the end of the match,
    one code unit further when the match is empty; nowhere ([None]) when
    that passes the end of the input. *)
Definition after_match (m : RegExpExecArray) (s : jsstring) :
  option jsstring :=
  match whole m with
  | [] => match skipn (index m) s with
          | [] => None
          | _ :: s' => Some s'
          end
  | _ :: _ => Some (skipn (index m + length (whole m)) s)
  end.

(** [s.match(/r/g)]: the texts of the successive matches, [null] when there
    is none.  Every round but the last shortens the input, so its length
    bounds the number of rounds (see [match_rounds_budget]). *)
Fixpoint match_rounds (n : nat) (r : pattern) (s : jsstring) :
  list jsstring :=
  match n with
  | O => []
  | S n' =>
      match exec r s with
      | Some m =>
          whole m :: match after_match m s with
                     | Some s' => match_rounds n' r s'
                     | None => []
                     end
      | None => []
      end
  end.

Definition match_all (r : pattern) (s : jsstring) : option (list jsstring) :=
  match match_rounds (S (length s)) r s with
  | [] => None
  | ms => Some ms
  end.

(** [s.replace(/r/g, '$1')]: every match is replaced by its first capture
    (by the empty string when the capture is undefined); the text between
    the matches is kept (see [replace_rounds_budget] for the bound). *)
Fixpoint replace_rounds (n : nat) (r : pattern) (s : jsstring) : jsstring :=
  match n with
  | O => s
  | S n' =>
      match exec r s with
      | Some m =>
          let g1 := match group 1 m with Some g => g | None => [] end in
          firstn (index m) s ++ g1 ++
          match after_match m s with
          | Some s' =>
              match whole m with
              | [] => firstn 1 (skipn (index m) s) ++ replace_rounds n' r s'
              | _ :: _ => replace_rounds n' r s'
              end
          | None => []
          end
      | None => s
      end
  end.

Definition replace_all_group1 (r : pattern) (s : jsstring) : jsstring :=
  replace_rounds (S (length s)) r s.

End RegExp.

Import RegExp.

(* ================================================================= *)
(** ** The parser *)

Module Parser.

Inductive NodeTypes := ELEMENT | TEXT | ATTRIBUTE.

(** The nodes, as they exist at run time: objects discriminated by their
    [type] field.  The interfaces [ElementNode], [TextNode] and
    [AttributeNode] are the three variants; the field types the interfaces
    declare for [props] and [children] are erased at run time and appear
    below as theorems about the parser. *)
#[warnings="-register-all"]
Inductive Node : Type :=
| ElementNode (tag tagName : jsstring) (isSelfClosing : bool)
              (props children : list Node)
| TextNode (content : jsstring)
| AttributeNode (name value : jsstring).

Definition type (n : Node) : NodeTypes :=
  match n with
  | ElementNode _ _ _ _ _ => ELEMENT
  | TextNode _ => TEXT
  | AttributeNode _ _ => ATTRIBUTE
  end.

Definition tag (n : Node) : jsstring :=
  match n with ElementNode t _ _ _ _ => t | _ => [] end.
Definition tagName (n : Node) : jsstring :=
  match n with ElementNode _ t _ _ _ => t | _ => [] end.
Definition isSelfClosing (n : Node) : bool :=
  match n with ElementNode _ _ b _ _ => b | _ => false end.
Definition props (n : Node) : list Node :=
  match n with ElementNode _ _ _ ps _ => ps | _ => [] end.
Definition children (n : Node) : list Node :=
  match n with ElementNode _ _ _ _ cs => cs | _ => [] end.

(** [element.children = children] *)
Definition set_children (n : Node) (cs : list Node) : Node :=
  match n with
  | ElementNode t tn b ps _ => ElementNode t tn b ps cs
  | _ => n
  end.

(** The cursor. *)
Record ParseContext := { source : jsstring }.

(** What a call can end in: a value, a thrown exception, or (in the model
    only) an exhausted recursion budget. *)
Inductive exn :=
| TypeError   (* reading a property of [null] or [undefined] *)
| LoopError.  (* the [Error] thrown by the loop guard of [parseNode] *)

Inductive result (A : Type) : Type :=
| Ok (a : A)
| Throw (e : exn)
| Fuel.
Arguments Ok {A} a.
Arguments Throw {A} e.
Arguments Fuel {A}.

(** Computations over the shared cursor. *)
Definition M (A : Type) : Type := ParseContext -> result (A * ParseContext).

Definition ret {A} (a : A) : M A := fun ctx => Ok (a, ctx).

Definition bind {A B} (m : M A) (f : A -> M B) : M B := fun ctx =>
  match m ctx with
  | Ok (a, ctx') => f a ctx'
  | Throw e => Throw e
  | Fuel => Fuel
  end.

Definition throw {A} (e : exn) : M A := fun _ => Throw e.

Definition lift {A} (r : result A) : M A := fun ctx =>
  match r with
  | Ok a => Ok (a, ctx)
  | Throw e => Throw e
  | Fuel => Fuel
  end.

Definition get_source : M jsstring := fun ctx => Ok (source ctx, ctx).

Declare Scope parse_scope.
Delimit Scope parse_scope with parse.
Notation "x <- c1 ;; c2" := (bind c1 (fun x => c2))
  (at level 61, c1 at next level, right associativity) : parse_scope.
Notation "c1 ;; c2" := (bind c1 (fun _ => c2))
  (at level 61, right associativity) : parse_scope.
Local Open Scope parse_scope.

(** [m[i]] for a match array and a capture the pattern has. *)
Definition grp (i : nat) (m : RegExpExecArray) : jsstring :=
  match group i m with Some g => g | None => [] end.

(* ----------------------------------------------------------------- *)
(** *** The patterns of [parser.ts] (the leading anchor is in the call:
        [exec_anchored] for the anchored ones) *)

Definition lt_sign := chr "<".
Definition gt_sign := chr ">".
Definition slash := chr "/".
Definition blank := chr " ".
Definition equals := chr "=".

(** [/^[\t\r\n\f ]+/] *)
Definition re_head_spaces : pattern := [Plus Greedy space].

(** [/^<([a-z0-9]+)/i] *)
Definition re_open_start : pattern :=
  [Char lt_sign; LParen; Plus Greedy alnum_i; RParen].

(** [/^(<.+?>)/i] *)
Definition re_open_tag : pattern :=
  [LParen; Char lt_sign; Plus Lazy dot; Char gt_sign; RParen].

(** [/ \/>$/] *)
Definition re_self_closing : pattern :=
  [Char blank; Char slash; Char gt_sign; Dollar].

(** [/^<\/( [a-z0-9][^\t\r\n\f />]* )/i] (written here with blanks inside
    the parentheses) *)
Definition re_close_name : pattern :=
  [Char lt_sign; Char slash; LParen; Char alnum_i; Star Greedy name_char;
   RParen].

(** [/^(<\/.+?>)/i] *)
Definition re_close_tag : pattern :=
  [LParen; Char lt_sign; Char slash; Plus Lazy dot; Char gt_sign; RParen].

(** [/^(<[a-z0-9].*?\/*>)/i] *)
Definition re_start_or_self : pattern :=
  [LParen; Char lt_sign; Char alnum_i; Star Lazy dot; Star Greedy slash;
   Char gt_sign; RParen].

(** [/^(<\/[a-z0-9].*?>)/i] *)
Definition re_finish : pattern :=
  [LParen; Char lt_sign; Char slash; Char alnum_i; Star Lazy dot;
   Char gt_sign; RParen].

(** [/^([^<]+?)(<[a-z0-9].*? \/>)/i] *)
Definition re_text_self_close : pattern :=
  [LParen; Plus Lazy not_lt; RParen;
   LParen; Char lt_sign; Char alnum_i; Star Lazy dot; Char blank; Char slash;
   Char gt_sign; RParen].

(** [/^([^<]+?)(<\/[a-z0-9].*?>)/i] *)
Definition re_text_finish : pattern :=
  [LParen; Plus Lazy not_lt; RParen;
   LParen; Char lt_sign; Char slash; Char alnum_i; Star Lazy dot;
   Char gt_sign; RParen].

(** [/^([^<]+?)(<[a-z0-9].*?>)/i] *)
Definition re_text_start : pattern :=
  [LParen; Plus Lazy not_lt; RParen;
   LParen; Char lt_sign; Char alnum_i; Star Lazy dot; Char gt_sign; RParen].

(** [/<\/*([a-z0-9]+).*>/i] *)
Definition re_tag_name : pattern :=
  [Char lt_sign; Star Greedy slash; LParen; Plus Greedy alnum_i; RParen;
   Star Greedy dot; Char gt_sign].

(** The attribute pattern of [getProps], flags [gi]: a run of key
    characters, [=], a double quote, a lazy non-empty run of anything but
    the double quote, a double quote. *)
Definition re_attribute : pattern :=
  [Plus Greedy key_char; Char equals; Char dquote; Plus Lazy not_dquote;
   Char dquote].

(** The quote pattern of [getProps], flag [g]: a quote, a greedy non-empty
    run of [.] captured, a quote. *)
Definition re_quoted : pattern :=
  [Char any_quote; LParen; Plus Greedy dot; RParen; Char any_quote].

(* ----------------------------------------------------------------- *)
(** *** The functions of [parser.ts] *)

Definition cutHeadStr (length : nat) : M unit := fun ctx =>
  Ok (tt, {| source := slice length (source ctx) |}).

Definition removeHeadSpaces : M unit :=
  src <- get_source ;;
  match exec_anchored re_head_spaces src with
  | Some m => cutHeadStr (length (whole m))
  | None => ret tt
  end.

Definition getTagName (tag : jsstring) : jsstring :=
  if negb (includes 60%N tag) then tag
  else match exec re_tag_name tag with
       | None => []
       | Some m => grp 1 m
       end.

(** [match.map(f)] for a callback that may throw. *)
Fixpoint map_result {A B} (f : A -> result B) (l : list A) :
  result (list B) :=
  match l with
  | [] => Ok []
  | a :: l' =>
      match f a with
      | Ok b =>
          match map_result f l' with
          | Ok bs => Ok (b :: bs)
          | Throw e => Throw e
          | Fuel => Fuel
          end
      | Throw e => Throw e
      | Fuel => Fuel
      end
  end.

(** The callback of [getProps]: [const [key, value] = attr.split('=')] takes
    the first two pieces of the split; [value.replace] throws when there is
    no second piece. *)
Definition attribute_of (attr : jsstring) : result Node :=
  match split 61%N attr with
  | key :: value :: _ =>
      Ok (AttributeNode key (replace_all_group1 re_quoted value))
  | _ => Throw TypeError
  end.

Definition getProps (tag : jsstring) : result (list Node) :=
  match match_all re_attribute tag with
  | None => Ok []
  | Some ms => map_result attribute_of ms
  end.

Definition findNextElement : M (option Node) :=
  removeHeadSpaces ;;
  src <- get_source ;;
  match exec_anchored re_open_start src with
  | None => ret None
  | Some _ =>
      match exec_anchored re_open_tag src with
      | None => throw TypeError          (* [match2[1]] of [null] *)
      | Some match2 =>
          let tag := grp 1 match2 in
          cutHeadStr (length tag) ;;
          removeHeadSpaces ;;
          let isSelfClosing := test re_self_closing tag in
          props <- lift (getProps tag) ;;
          ret (Some (ElementNode tag (getTagName tag) isSelfClosing props []))
      end
  end.

Definition isNextCloseTag (tagName : jsstring) : M bool :=
  removeHeadSpaces ;;
  src <- get_source ;;
  match exec_anchored re_close_name src with
  | None => ret false
  | Some m =>
      let findTagName := grp 1 m in
      if Js.eqb findTagName tagName then
        match exec_anchored re_close_tag src with
        | None => throw TypeError        (* [tagMatch[1]] of [null] *)
        | Some tagMatch =>
            cutHeadStr (length (grp 1 tagMatch)) ;;
            ret true
        end
      else ret false
  end.

Definition isStartOrSelfFinishTag (text : jsstring) :=
  exec_anchored re_start_or_self text.
Definition isFinishTag (text : jsstring) :=
  exec_anchored re_finish text.
Definition isTextAndSelfCloseTag (text : jsstring) :=
  exec_anchored re_text_self_close text.
Definition isTextAndFinishTag (text : jsstring) :=
  exec_anchored re_text_finish text.
Definition isTextAndStartTag (text : jsstring) :=
  exec_anchored re_text_start text.

(** The object [getNextTextAndElement] returns. *)
Record TextAndElement := {
  te_text : jsstring;
  te_tag : jsstring;
  te_tagName : jsstring;
  te_selftag : jsstring
}.

Definition getNextTextAndElement : M TextAndElement :=
  removeHeadSpaces ;;
  src <- get_source ;;
  match isStartOrSelfFinishTag src with
  | Some m =>
      let tag := grp 1 m in
      ret {| te_text := []; te_tag := tag; te_tagName := getTagName tag;
             te_selftag := [] |}
  | None =>
  match isFinishTag src with
  | Some _ =>
      ret {| te_text := []; te_tag := []; te_tagName := [];
             te_selftag := [] |}
  | None =>
  match isTextAndSelfCloseTag src with
  | Some m =>
      let text := grp 1 m in
      let selftag := grp 2 m in
      ret {| te_text := trim text; te_tag := []; te_tagName := [];
             te_selftag := selftag |}
  | None =>
  match isTextAndFinishTag src with
  | Some m =>
      let text := grp 1 m in
      ret {| te_text := trim text; te_tag := []; te_tagName := [];
             te_selftag := [] |}
  | None =>
  match isTextAndStartTag src with
  | Some m =>
      let text := grp 1 m in
      let tag := grp 2 m in
      ret {| te_text := text; te_tag := tag; te_tagName := getTagName tag;
             te_selftag := [] |}
  | None =>
      ret {| te_text := []; te_tag := []; te_tagName := getTagName [];
             te_selftag := [] |}
  end end end end end.

(** The counter object of [parseNode]. *)
Record Counter := { count : nat; max : nat }.

(** The [while (true)] loop of [parseNode].  [rec] is the recursive call
    [parseNode(ctx)]; [iters] bounds the iterations of the model (the guard
    on [counter] throws before it runs out, see [whileLoop_guard]). *)
Fixpoint whileLoop (rec : M (option Node)) (parentTag : jsstring)
         (iters : nat) (counter : Counter) (children : list Node) :
  M (list Node) :=
  match iters with
  | O => fun _ => Fuel
  | S iters' =>
      removeHeadSpaces ;;
      r <- getNextTextAndElement ;;
      children <-
        (if truthy (te_text r) then
           cutHeadStr (length (te_text r)) ;;
           ret (children ++ [TextNode (te_text r)])
         else ret children) ;;
      children <-
        (if truthy (te_tag r) then
           mynode <- rec ;;
           match mynode with
           | Some n => ret (children ++ [n])
           | None => ret children
           end
         else ret children) ;;
      closed <- isNextCloseTag parentTag ;;
      if closed then ret children
      else
        let counter := {| count := count counter + 1; max := max counter |} in
        if max counter <? count counter then throw LoopError
        else whileLoop rec parentTag iters' counter children
  end.

(** The body of [parseNode], with [rec] for its recursive call. *)
Definition parseNodeBody (rec : M (option Node)) : M (option Node) :=
  element <- findNextElement ;;
  match element with
  | None => ret None
  | Some element =>
      if isSelfClosing element then ret (Some element)
      else
        let parentTag := tagName element in
        let counter := {| count := 0; max := 30 |} in
        children <- whileLoop rec parentTag 31 counter [] ;;
        ret (Some (set_children element children))
  end.

(** [parseNode]; [fuel] bounds the depth of the recursion of the model. *)
Fixpoint parseNode (fuel : nat) : M (option Node) :=
  match fuel with
  | O => fun _ => Fuel
  | S fuel' => parseNodeBody (parseNode fuel')
  end.

(** [parser(html).parse()] on a fresh parser.  Every nested call of
    [parseNode] starts after an open tag has been cut from the source, so
    the length of the input bounds the depth (see [parse_total]). *)
Definition parse (html : jsstring) : result (option Node * ParseContext) :=
  parseNode (S (length html)) {| source := html |}.

End Parser.

Import Parser.

(* ================================================================= *)
(** ** Vocabulary of the specification

    Plain list functions and predicates in which the properties of the
    parser are stated; none of them goes through the matcher. *)

Module Spec.

(** The input without its maximal leading run of tab, carriage return,
    newline, form feed and space. *)
Fixpoint drop_spaces (s : jsstring) : jsstring :=
  match s with
  | x :: s' => if space x then drop_spaces s' else s
  | [] => []
  end.

(** The input begins with [<] followed by a letter or a digit. *)
Definition starts_with_lt_alnum (s : jsstring) : bool :=
  match s with
  | x :: y :: _ => lt_sign x && alnum_i y
  | _ => false
  end.

(** The prefix of the input that ends at the first occurrence of [c], and
    what follows it. *)
Fixpoint upto_first (c : char) (s : jsstring) :
  option (jsstring * jsstring) :=
  match s with
  | [] => None
  | x :: s' =>
      if char_eqb x c then Some ([x], s')
      else match upto_first c s' with
           | Some (p, rest) => Some (x :: p, rest)
           | None => None
           end
  end.

(** The maximal leading run of the characters of a class. *)
Fixpoint take_while (c : cclass) (s : jsstring) : jsstring :=
  match s with
  | x :: s' => if c x then x :: take_while c s' else []
  | [] => []
  end.

(** The name of the close tag at the head of the input: after [</], a
    letter or digit and the run of characters up to the first blank, [/] or
    [>]; [None] when the input does not begin with [</] and a letter or
    digit. *)
Definition close_tag_name (s : jsstring) : option jsstring :=
  match s with
  | a :: b :: x :: s' =>
      if lt_sign a && slash b && alnum_i x
      then Some (x :: take_while name_char s') else None
  | _ => None
  end.

(** A [>] occurs in the input before any line terminator. *)
Fixpoint gt_before_line_end (s : jsstring) : bool :=
  match s with
  | [] => false
  | c :: s' =>
      if N.eqb c 62 then true
      else if line_terminator c then false
      else gt_before_line_end s'
  end.

(** [s] ends with [suffix]. *)
Definition ends_with (suffix s : jsstring) : Prop :=
  exists front, s = front ++ suffix.

(** [d] is [n] or occurs below [n] in the tree, through [children]. *)
Inductive in_tree (d : Node) : Node -> Prop :=
| in_tree_here : in_tree d d
| in_tree_child n c : In c (children n) -> in_tree d c -> in_tree d n.

Definition is_attribute (n : Node) : bool :=
  match n with AttributeNode _ _ => true | _ => false end.

(** The three ways [findNextElement] ends. *)
Inductive findNextElement_spec (ctx : ParseContext) :
  result (option Node * ParseContext) -> Prop :=
| fne_none :
    starts_with_lt_alnum (drop_spaces (source ctx)) = false ->
    findNextElement_spec ctx
      (Ok (None, {| source := drop_spaces (source ctx) |}))
| fne_throw :
    starts_with_lt_alnum (drop_spaces (source ctx)) = true ->
    gt_before_line_end (drop_spaces (source ctx)) = false ->
    findNextElement_spec ctx (Throw TypeError)
| fne_element tg rest ps :
    starts_with_lt_alnum (drop_spaces (source ctx)) = true ->
    gt_before_line_end (drop_spaces (source ctx)) = true ->
    upto_first 62%N (drop_spaces (source ctx)) = Some (tg, rest) ->
    forallb dot tg = true ->
    forallb is_attribute ps = true ->
    findNextElement_spec ctx
      (Ok (Some (ElementNode tg (getTagName tg) (test re_self_closing tg)
                   ps []),
           {| source := drop_spaces rest |})).

(** The three ways [isNextCloseTag] ends. *)
Inductive isNextCloseTag_spec (tn : jsstring) (ctx : ParseContext) :
  result (bool * ParseContext) -> Prop :=
| inct_no :
    close_tag_name (drop_spaces (source ctx)) <> Some tn ->
    isNextCloseTag_spec tn ctx
      (Ok (false, {| source := drop_spaces (source ctx) |}))
| inct_throw :
    close_tag_name (drop_spaces (source ctx)) = Some tn ->
    gt_before_line_end (drop_spaces (source ctx)) = false ->
    isNextCloseTag_spec tn ctx (Throw TypeError)
| inct_yes closeTag rest :
    close_tag_name (drop_spaces (source ctx)) = Some tn ->
    gt_before_line_end (drop_spaces (source ctx)) = true ->
    upto_first 62%N (drop_spaces (source ctx)) = Some (closeTag, rest) ->
    isNextCloseTag_spec tn ctx (Ok (true, {| source := rest |})).

Definition len (ctx : ParseContext) : nat := length (source ctx).

(** A call behaves on the cursors shorter than [n]: it ends, and when it
    returns the cursor has not grown. *)
Definition behaves {A} (n : nat) (m : M A) : Prop :=
  forall ctx, len ctx < n ->
    match m ctx with
    | Ok (_, ctx') => len ctx' <= len ctx
    | Throw _ => True
    | Fuel => False
    end.

Definition is_element (n : Node) : bool :=
  match n with ElementNode _ _ _ _ _ => true | _ => false end.

Definition is_child (n : Node) : bool :=
  match n with AttributeNode _ _ => false | _ => true end.

(** Every element of the tree keeps attributes in [props] only, elements
    and texts in [children] only, and has no child when self-closing. *)
Fixpoint tree_ok (n : Node) : bool :=
  match n with
  | ElementNode _ _ sc ps cs =>
      forallb is_attribute ps &&
      forallb (fun c => is_child c && tree_ok c) cs &&
      (if sc then match cs with [] => true | _ :: _ => false end else true)
  | _ => true
  end.

Definition children_ok (cs : list Node) : bool :=
  forallb (fun c => is_child c && tree_ok c) cs.

(** What [rec] returns is a well-shaped element. *)
Definition yields_elements (m : M (option Node)) : Prop :=
  forall ctx n ctx', m ctx = Ok (Some n, ctx') ->
                     is_element n = true /\ tree_ok n = true.

(** [t] is what is left of [s] after a prefix has been consumed. *)
Definition is_suffix (t s : jsstring) : Prop :=
  exists consumed, s = consumed ++ t.

(** A computation only consumes: when it returns, the cursor is a suffix of
    what it was. *)
Definition consumes {A} (m : M A) : Prop :=
  forall ctx a ctx', m ctx = Ok (a, ctx') ->
                     is_suffix (source ctx') (source ctx).

(** The input without its maximal leading run of a class. *)
Fixpoint drop_while (c : cclass) (s : jsstring) : jsstring :=
  match s with
  | x :: s' => if c x then drop_while c s' else s
  | [] => []
  end.

(** Every node of the tree, through [children], satisfies [p]. *)
Fixpoint node_all (p : Node -> bool) (n : Node) : bool :=
  p n &&
  match n with
  | ElementNode _ _ _ _ cs => forallb (node_all p) cs
  | _ => true
  end.

(** A text node has a non-empty content without [<]. *)
Definition text_ok (n : Node) : bool :=
  match n with
  | TextNode c => truthy c && forallb not_lt c
  | _ => true
  end.

Definition is_text (n : Node) : bool :=
  match n with TextNode _ => true | _ => false end.

(** The number of elements, and of texts, in a list of nodes. *)
Definition elements_in (cs : list Node) : nat :=
  length (filter is_element cs).
Definition texts_in (cs : list Node) : nat :=
  length (filter is_text cs).

(** A node has at most 31 elements and at most 31 texts as children. *)
Definition width_ok (n : Node) : bool :=
  (elements_in (children n) <=? 31) && (texts_in (children n) <=? 31).

End Spec.

Import Spec.

(* ================================================================= *)
(** ** Properties of the matcher *)

Section MatcherFacts.

Variable c : cclass.
Variable k : cont.

(** A star splits the input into a run of the class and a rest the
    continuation accepts. *)
Lemma star_lazy_sound s p ps :
  star_lazy c k s = Some (p, ps) ->
  exists rest, s = p ++ rest /\ forallb c p = true /\ k rest = Some ps.
Proof.
  revert p ps; induction s as [|x s IH]; intros p ps; simpl.
  - destruct (k []) eqn:E; [|discriminate].
    intros [= <- <-]. now exists [].
  - destruct (k (x :: s)) eqn:E.
    + intros [= <- <-]. now exists (x :: s).
    + destruct (c x) eqn:Cx; [|discriminate].
      destruct (star_lazy c k s) as [[p' ps']|] eqn:R; [|discriminate].
      intros [= <- <-].
      destruct (IH _ _ eq_refl) as (rest & -> & Hp & Hk).
      exists rest; simpl; rewrite Cx; auto.
Qed.

(** The lazy star stops at the first split the continuation accepts. *)
Lemma star_lazy_minimal s p ps :
  star_lazy c k s = Some (p, ps) ->
  forall n, n < length p -> k (skipn n s) = None.
Proof.
  revert p ps; induction s as [|x s IH]; intros p ps; simpl.
  - destruct (k []) eqn:E; [|discriminate].
    intros [= <- <-] n Hn; simpl in Hn; lia.
  - destruct (k (x :: s)) eqn:E.
    + intros [= <- <-] n Hn; simpl in Hn; lia.
    + destruct (c x) eqn:Cx; [|discriminate].
      destruct (star_lazy c k s) as [[p' ps']|] eqn:R; [|discriminate].
      intros [= <- <-] [|n] Hn; simpl in *; auto.
      apply (IH _ _ eq_refl); lia.
Qed.

(** The lazy star succeeds as soon as some run of the class is followed by
    a rest the continuation accepts. *)
Lemma star_lazy_complete p rest ps :
  forallb c p = true -> k rest = Some ps ->
  star_lazy c k (p ++ rest) <> None.
Proof.
  induction p as [|x p IH]; simpl; intros Hp Hk.
  - destruct rest; simpl; rewrite Hk; discriminate.
  - apply andb_prop in Hp as [Cx Hp].
    destruct (k (x :: p ++ rest)); [discriminate|].
    rewrite Cx. specialize (IH Hp Hk).
    destruct (star_lazy c k (p ++ rest)) as [[? ?]|]; congruence.
Qed.

Lemma star_greedy_sound s p ps :
  star_greedy c k s = Some (p, ps) ->
  exists rest, s = p ++ rest /\ forallb c p = true /\ k rest = Some ps.
Proof.
  revert p ps; induction s as [|x s IH]; intros p ps; simpl.
  - destruct (k []) eqn:E; [|discriminate].
    intros [= <- <-]. now exists [].
  - destruct (c x) eqn:Cx.
    + destruct (star_greedy c k s) as [[p' ps']|] eqn:R.
      * intros [= <- <-].
        destruct (IH _ _ eq_refl) as (rest & -> & Hp & Hk).
        exists rest; simpl; rewrite Cx; auto.
      * destruct (k (x :: s)) eqn:E; [|discriminate].
        intros [= <- <-]. now exists (x :: s).
    + destruct (k (x :: s)) eqn:E; [|discriminate].
      intros [= <- <-]. now exists (x :: s).
Qed.

(** The greedy star gives back a character only when the continuation
    refuses every longer run. *)
Lemma star_greedy_maximal s p ps :
  star_greedy c k s = Some (p, ps) ->
  forall q rest, s = q ++ rest -> forallb c q = true ->
                 length p < length q -> k rest = None.
Proof.
  revert p ps; induction s as [|x s IH]; intros p ps; simpl.
  - intros _ q rest Hs _ Hlen.
    destruct q; simpl in *; [lia | discriminate].
  - destruct (c x) eqn:Cx.
    + destruct (star_greedy c k s) as [[p' ps']|] eqn:R.
      * intros [= <- <-] q rest Hs Hq Hlen.
        destruct q as [|y q]; simpl in *; [lia|].
        injection Hs as -> ->. apply andb_prop in Hq as [_ Hq].
        apply (IH _ _ eq_refl q rest); auto; lia.
      * destruct (k (x :: s)) eqn:E; [|discriminate].
        intros [= <- <-] q rest Hs Hq Hlen.
        destruct q as [|y q]; simpl in *; [lia|].
        injection Hs as -> ->. apply andb_prop in Hq as [_ Hq].
        clear IH Hlen E. revert rest R Hq.
        induction q as [|z q IHq]; simpl; intros rest R Hq.
        -- destruct rest as [|z rest]; simpl in R.
           ++ destruct (k []); [discriminate | reflexivity].
           ++ destruct (c z).
              ** destruct (star_greedy c k rest) as [[? ?]|];
                   [discriminate|].
                 destruct (k (z :: rest)); [discriminate | reflexivity].
              ** destruct (k (z :: rest)); [discriminate | reflexivity].
        -- apply andb_prop in Hq as [Cz Hq]. rewrite Cz in R.
           destruct (star_greedy c k (q ++ rest)) as [[? ?]|] eqn:R';
             [discriminate|].
           apply IHq; auto.
    + destruct (k (x :: s)) eqn:E; [|discriminate].
      intros [= <- <-] q rest Hs Hq Hlen.
      destruct q as [|y q]; simpl in *; [lia|].
      injection Hs as -> ->. rewrite Cx in Hq. discriminate.
Qed.

End MatcherFacts.

(** What a pattern matched is a prefix of the input. *)
Lemma exec_at_prefix r : forall s ps,
  exec_at r s = Some ps -> exists rest, s = List.concat ps ++ rest.
Proof.
  induction r as [|a r IH]; intros s ps; simpl.
  - intros [= <-]. now exists s.
  - destruct a as [c|g c|g c| | |].
    + destruct s as [|x s]; [discriminate|].
      destruct (c x); [|discriminate].
      destruct (exec_at r s) as [ps'|] eqn:E; [|discriminate].
      intros [= <-]. destruct (IH _ _ E) as (rest & ->).
      now exists rest.
    + destruct (star g c (exec_at r) s) as [[p ps']|] eqn:E; [|discriminate].
      intros [= <-].
      assert (exists rest, s = p ++ rest /\ forallb c p = true /\
                           exec_at r rest = Some ps') as (rest & -> & _ & Hk)
        by (destruct g; [apply star_greedy_sound | apply star_lazy_sound];
            exact E).
      destruct (IH _ _ Hk) as (rest' & ->).
      exists rest'. simpl. now rewrite app_assoc.
    + destruct s as [|x s]; [discriminate|].
      destruct (c x); [|discriminate].
      destruct (star g c (exec_at r) s) as [[p ps']|] eqn:E; [|discriminate].
      intros [= <-].
      assert (exists rest, s = p ++ rest /\ forallb c p = true /\
                           exec_at r rest = Some ps') as (rest & -> & _ & Hk)
        by (destruct g; [apply star_greedy_sound | apply star_lazy_sound];
            exact E).
      destruct (IH _ _ Hk) as (rest' & ->).
      exists rest'. simpl. now rewrite app_assoc.
    + destruct (exec_at r s) as [ps'|] eqn:E; [|discriminate].
      intros [= <-]. destruct (IH _ _ E) as (rest & ->). now exists rest.
    + destruct (exec_at r s) as [ps'|] eqn:E; [|discriminate].
      intros [= <-]. destruct (IH _ _ E) as (rest & ->). now exists rest.
    + destruct s; [|discriminate].
      destruct (exec_at r []) as [ps'|] eqn:E; [|discriminate].
      intros [= <-]. destruct (IH _ _ E) as (rest & Hr). now exists rest.
Qed.

Lemma exec_at_length r s ps :
  exec_at r s = Some ps -> length (List.concat ps) <= length s.
Proof.
  intros H. destruct (exec_at_prefix _ _ H) as (rest & Hs).
  apply (f_equal (@length _)) in Hs. rewrite length_app in Hs. lia.
Qed.

(** A match lies inside the input, at its index. *)
Lemma exec_from_bounds r : forall s i m,
  exec_from r i s = Some m ->
  exists front rest, s = front ++ whole m ++ rest /\
                     index m = i + length front.
Proof.
  induction s as [|x s IH]; intros i m; simpl.
  - destruct (exec_at r []) as [ps|] eqn:E; [|discriminate].
    intros [= <-]. destruct (exec_at_prefix _ _ E) as (rest & Hr).
    exists [], rest. simpl. split; [assumption | lia].
  - destruct (exec_at r (x :: s)) as [ps|] eqn:E.
    + intros [= <-]. destruct (exec_at_prefix _ _ E) as (rest & Hr).
      exists [], rest. simpl. split; [assumption | lia].
    + intros H. destruct (IH _ _ H) as (front & rest & -> & Hi).
      exists (x :: front), rest. simpl. split; [reflexivity | lia].
Qed.

(** A global search resumes on a shorter input. *)
Lemma after_match_shorter r s m s' :
  exec r s = Some m -> after_match m s = Some s' -> length s' < length s.
Proof.
  unfold exec, after_match. intros H.
  destruct (exec_from_bounds _ _ _ H) as (front & rest & Hs & Hi).
  simpl in Hi. destruct (whole m) as [|c w] eqn:Ew.
  - destruct (skipn (index m) s) as [|y t] eqn:Ek; [discriminate|].
    intros [= <-]. apply (f_equal (@length _)) in Ek.
    rewrite length_skipn in Ek. simpl in Ek. lia.
  - intros [= <-]. rewrite length_skipn.
    apply (f_equal (@length _)) in Hs. rewrite !length_app in Hs.
    simpl in *. lia.
Qed.

(** The rounds of the global [match] and [replace] end within the length
    of the input: a larger budget gives the same result. *)
Lemma match_rounds_budget r : forall n n' s,
  length s < n -> length s < n' -> match_rounds n r s = match_rounds n' r s.
Proof.
  induction n as [|n IH]; intros [|n'] s Hn Hn'; try lia. simpl.
  destruct (exec r s) as [m|] eqn:E; [|reflexivity].
  destruct (after_match m s) as [s'|] eqn:Ea; [|reflexivity].
  pose proof (@after_match_shorter _ _ _ _ E Ea).
  f_equal. apply IH; lia.
Qed.

Lemma replace_rounds_budget r : forall n n' s,
  length s < n -> length s < n' ->
  replace_rounds n r s = replace_rounds n' r s.
Proof.
  induction n as [|n IH]; intros [|n'] s Hn Hn'; try lia. simpl.
  destruct (exec r s) as [m|] eqn:E; [|reflexivity].
  destruct (after_match m s) as [s'|] eqn:Ea; [|reflexivity].
  pose proof (@after_match_shorter _ _ _ _ E Ea).
  rewrite (IH n' s') by lia. reflexivity.
Qed.

Lemma star_greedy_total c (k : cont) :
  (forall s, k s <> None) -> forall s, star_greedy c k s <> None.
Proof.
  intros Hk s. induction s as [|x s IH]; simpl.
  - specialize (Hk []). destruct (k []); congruence.
  - specialize (Hk (x :: s)).
    destruct (c x); destruct (star_greedy c k s) as [[? ?]|];
      destruct (k (x :: s)); congruence.
Qed.

(* ================================================================= *)
(** ** The cursor primitives *)

Ltac unmonad :=
  unfold bind, ret, throw, lift, get_source, cutHeadStr, slice in *;
  simpl in *.

(** The run a greedy star of blanks takes when nothing follows it in the
    pattern. *)
Lemma star_greedy_spaces s :
  exists p, star_greedy space (fun _ => Some []) s = Some (p, []) /\
            skipn (length p) s = drop_spaces s.
Proof.
  induction s as [|x s (p & IH & Hp)]; simpl.
  - now exists [].
  - destruct (space x) eqn:Sx.
    + rewrite IH. now exists (x :: p).
    + now exists [].
Qed.

(** [removeHeadSpaces] always returns, and cuts exactly the leading
    blanks. *)
Lemma removeHeadSpaces_eq ctx :
  removeHeadSpaces ctx = Ok (tt, {| source := drop_spaces (source ctx) |}).
Proof.
  destruct ctx as [s]. unfold removeHeadSpaces, exec_anchored, re_head_spaces.
  unmonad. destruct s as [|x s]; simpl; [reflexivity|].
  destruct (space x) eqn:Sx; [|reflexivity].
  destruct (star_greedy_spaces s) as (p & -> & Hp).
  unfold mk_match; simpl. rewrite app_nil_r. now rewrite Hp.
Qed.

Lemma drop_spaces_length s : length (drop_spaces s) <= length s.
Proof.
  induction s as [|x s IH]; simpl; [lia|].
  destruct (space x); simpl; lia.
Qed.

Lemma drop_spaces_idem s : drop_spaces (drop_spaces s) = drop_spaces s.
Proof.
  induction s as [|x s IH]; simpl; [reflexivity|].
  destruct (space x) eqn:Sx; [exact IH|]. simpl. now rewrite Sx.
Qed.

(* ================================================================= *)
(** ** The patterns of the open tag *)

(** A lazy run followed by a continuation that accepts exactly the inputs
    starting with [a] stops at the first [a]. *)
Lemma star_lazy_stops_at_first c (k : cont) (a : char) s p ps :
  (forall t, k t <> None -> exists rest, t = a :: rest) ->
  (forall rest, k (a :: rest) <> None) ->
  star_lazy c k s = Some (p, ps) ->
  exists rest, s = p ++ a :: rest /\ forallb c p = true /\ ~ In a p /\
               k (a :: rest) = Some ps.
Proof.
  intros Hk1 Hk2 H.
  destruct (@star_lazy_sound _ _ _ _ _ H) as (rest0 & -> & Hp & Hk).
  destruct (Hk1 rest0) as (rest & ->); [congruence|].
  exists rest; repeat split; auto.
  intros Hin. apply in_split in Hin as (l1 & l2 & ->).
  pose proof (@star_lazy_minimal _ _ _ _ _ H (length l1)) as Hmin.
  rewrite length_app in Hmin; simpl in Hmin.
  rewrite <- app_assoc, skipn_app, skipn_all, Nat.sub_diag in Hmin.
  simpl in Hmin. apply (Hk2 (l2 ++ a :: rest)). apply Hmin. lia.
Qed.

Lemma upto_first_app c p rest :
  ~ In c p -> upto_first c (p ++ c :: rest) = Some (p ++ [c], rest).
Proof.
  induction p as [|x p IH]; simpl; intros Hn.
  - unfold char_eqb. now rewrite N.eqb_refl.
  - unfold char_eqb. destruct (N.eqb x c) eqn:E.
    + apply N.eqb_eq in E. tauto.
    + rewrite IH; auto.
Qed.

Lemma upto_first_split c s p rest :
  upto_first c s = Some (p, rest) -> s = p ++ rest /\ p <> [].
Proof.
  revert p rest; induction s as [|x s IH]; simpl; intros p rest;
    [discriminate|].
  destruct (char_eqb x c).
  - intros [= <- <-]. split; [reflexivity | discriminate].
  - destruct (upto_first c s) as [[p' r']|]; [|discriminate].
    intros [= <- <-]. destruct (IH _ _ eq_refl) as [-> _].
    split; [reflexivity | discriminate].
Qed.

(** A letter or digit is neither a line terminator nor [>]. *)
Lemma alnum_dot x : alnum_i x = true -> dot x = true /\ N.eqb x 62 = false.
Proof.
  intros H. unfold dot, line_terminator, one_of. simpl.
  destruct (N.eqb x 10) eqn:E1;
    [apply N.eqb_eq in E1; subst x; discriminate H|].
  destruct (N.eqb x 13) eqn:E2;
    [apply N.eqb_eq in E2; subst x; discriminate H|].
  destruct (N.eqb x 8232) eqn:E3;
    [apply N.eqb_eq in E3; subst x; discriminate H|].
  destruct (N.eqb x 8233) eqn:E4;
    [apply N.eqb_eq in E4; subst x; discriminate H|].
  destruct (N.eqb x 62) eqn:E5;
    [apply N.eqb_eq in E5; subst x; discriminate H|].
  split; reflexivity.
Qed.

(** A lazy run of [.] followed by [>] and the end of the group fails
    exactly when no [>] comes before the end of the line. *)
Lemma lazy_dot_until_gt s :
  star_lazy dot (exec_at [Char gt_sign; RParen]) s = None <->
  gt_before_line_end s = false.
Proof.
  induction s as [|c s IH]; simpl; [tauto|].
  unfold gt_sign at 1, chr at 1. simpl.
  destruct (N.eqb c 62); simpl; [split; discriminate|].
  unfold dot at 1. destruct (line_terminator c); simpl; [tauto|].
  rewrite <- IH. simpl.
  destruct (star_lazy dot _ s) as [[? ?]|]; split; congruence.
Qed.

(** The pattern of the whole open tag, on an input that begins with [<]
    and a letter or digit, fails exactly when no [>] comes before the end
    of the first line. *)
Lemma open_tag_none s :
  starts_with_lt_alnum s = true ->
  exec_anchored re_open_tag s = None <-> gt_before_line_end s = false.
Proof.
  unfold exec_anchored, re_open_tag, starts_with_lt_alnum.
  destruct s as [|x [|y s]]; try discriminate.
  intros Hs. apply andb_prop in Hs as [Hx Hy].
  cbn [exec_at]. rewrite Hx.
  destruct (alnum_dot _ Hy) as [Dy Gy]. rewrite Dy.
  cbn [gt_before_line_end]. rewrite Gy.
  unfold dot in Dy. apply negb_true_iff in Dy. rewrite Dy.
  unfold lt_sign, chr in Hx; simpl in Hx. apply N.eqb_eq in Hx; subst x.
  simpl N.eqb. cbn [line_terminator one_of existsb N.eqb Pos.eqb orb].
  rewrite <- lazy_dot_until_gt. unfold star.
  destruct (star_lazy dot _ s) as [[? ?]|]; simpl; split; congruence.
Qed.

(** [/^<([a-z0-9]+)/i] matches exactly the inputs that begin with [<] and
    a letter or digit. *)
Lemma open_start_none s :
  exec_anchored re_open_start s = None <-> starts_with_lt_alnum s = false.
Proof.
  unfold exec_anchored, re_open_start, starts_with_lt_alnum. simpl.
  destruct s as [|x [|y s]]; simpl.
  - tauto.
  - destruct (lt_sign x); tauto.
  - destruct (lt_sign x); simpl; [|tauto].
    destruct (alnum_i y); simpl; [|tauto].
    pose proof (@star_greedy_total alnum_i (fun s => Some [[]])) as T.
    specialize (T (fun _ => ltac:(discriminate)) s).
    destruct (star_greedy alnum_i _ s) as [[? ?]|]; [|congruence].
    split; discriminate.
Qed.

(** [/^(<.+?>)/i] on an input that begins with [<] and a letter or digit:
    the match, when there is one, is the prefix that ends at the first
    [>]. *)
Lemma open_tag_match s m :
  starts_with_lt_alnum s = true ->
  exec_anchored re_open_tag s = Some m ->
  exists rest, upto_first 62%N s = Some (grp 1 m, rest) /\
               whole m = grp 1 m /\ forallb dot (grp 1 m) = true.
Proof.
  unfold exec_anchored, re_open_tag, starts_with_lt_alnum. simpl.
  destruct s as [|x [|y s]]; try discriminate.
  intros Hs. apply andb_prop in Hs as [Hx Hy]. rewrite Hx. simpl.
  destruct (dot y) eqn:Dy; simpl; [|discriminate].
  match goal with
  | |- context [star_lazy dot ?K s] =>
      destruct (star_lazy dot K s) as [[p ps]|] eqn:E; [|discriminate];
      apply (@star_lazy_stops_at_first dot K 62%N) in E
  end.
  - destruct E as (rest & -> & Hp & Hn & Hk). simpl in Hk.
    injection Hk as <-. intros [= <-]. exists rest.
    unfold grp, mk_match; simpl.
    unfold lt_sign, chr in Hx; simpl in Hx. apply N.eqb_eq in Hx; subst x.
    assert (Hy62 : N.eqb y 62%N = false).
    { destruct (N.eqb y 62%N) eqn:E; [|reflexivity].
      apply N.eqb_eq in E; subst y. discriminate Hy. }
    unfold char_eqb; simpl. rewrite Hy62.
    rewrite upto_first_app by assumption.
    repeat split; try reflexivity.
    rewrite Dy. rewrite forallb_app, Hp. reflexivity.
  - intros [|z t]; [congruence|]. unfold gt_sign, chr; simpl.
    destruct (N.eqb z 62%N) eqn:Ez; [|congruence].
    apply N.eqb_eq in Ez; subst z. intros _. now exists t.
  - intros t. unfold gt_sign, chr; simpl. discriminate.
Qed.

(* ================================================================= *)
(** ** [getProps] and [findNextElement] *)

Lemma map_result_attribute_of ms :
  match map_result attribute_of ms with
  | Ok ps => forallb is_attribute ps = true
  | Throw e => e = TypeError
  | Fuel => False
  end.
Proof.
  induction ms as [|a ms IH]; simpl; [reflexivity|].
  unfold attribute_of at 1.
  destruct (split 61%N a) as [|key [|value ?]]; auto.
  destruct (map_result attribute_of ms); simpl; auto.
Qed.

(** [getProps] yields attribute nodes only, and the model never runs out
    of budget in it. *)
Lemma getProps_cases tg :
  match getProps tg with
  | Ok ps => forallb is_attribute ps = true
  | Throw e => e = TypeError
  | Fuel => False
  end.
Proof.
  unfold getProps. destruct (match_all re_attribute tg); [|reflexivity].
  apply map_result_attribute_of.
Qed.

(** *** [getProps] never throws *)

Lemma exec_from_whole r : forall s i m,
  exec_from r i s = Some m ->
  exists t ps, exec_at r t = Some ps /\ whole m = List.concat ps.
Proof.
  induction s as [|x s IH]; intros i m; simpl.
  - destruct (exec_at r []) as [ps|] eqn:E; [|discriminate].
    intros [= <-]. now exists [], ps.
  - destruct (exec_at r (x :: s)) as [ps|] eqn:E.
    + intros [= <-]. now exists (x :: s), ps.
    + apply IH.
Qed.

Lemma match_rounds_whole r : forall n s w,
  In w (match_rounds n r s) ->
  exists t ps, exec_at r t = Some ps /\ w = List.concat ps.
Proof.
  induction n as [|n IH]; intros s w; simpl; [tauto|].
  destruct (exec r s) as [m|] eqn:E; [|simpl; tauto].
  intros [<- | Hin].
  - apply (exec_from_whole _ _ _ E).
  - destruct (after_match m s); [apply (IH _ _ Hin) | destruct Hin].
Qed.

(** What the attribute pattern matches holds an [=]. *)
Lemma attribute_match_has_equals t ps :
  exec_at re_attribute t = Some ps -> In 61%N (List.concat ps).
Proof.
  unfold re_attribute. simpl.
  destruct t as [|x t]; [discriminate|].
  destruct (key_char x); [|discriminate].
  destruct (star_greedy key_char _ t) as [[p ps']|] eqn:E; [|discriminate].
  intros [= <-].
  apply star_greedy_sound in E as (rest & -> & _ & Hk).
  destruct rest as [|e rest]; [discriminate|].
  destruct (equals e) eqn:He; [|discriminate].
  unfold equals, chr in He; simpl in He. apply N.eqb_eq in He; subst e.
  destruct rest as [|q rest]; [discriminate|].
  destruct (dquote q); [|discriminate].
  destruct rest as [|v rest]; [discriminate|].
  destruct (not_dquote v); [|discriminate].
  destruct (star_lazy not_dquote _ rest) as [[pv psv]|]; [|discriminate].
  simpl in Hk. injection Hk as <-.
  simpl. right. apply in_or_app. right. now left.
Qed.

Lemma split_two c s :
  In c s -> exists a b l, split c s = a :: b :: l.
Proof.
  induction s as [|x s IH]; simpl; [tauto|].
  unfold char_eqb. destruct (N.eqb x c) eqn:E.
  - intros _. destruct s as [|y s]; simpl.
    + now exists [], [], [].
    + destruct (char_eqb y c); [now eexists _, _, _|].
      destruct (split c s); now eexists _, _, _.
  - intros [->|Hin]; [rewrite N.eqb_refl in E; discriminate|].
    destruct (IH Hin) as (a & b & l & ->). now eexists _, _, _.
Qed.

Lemma getProps_returns tg : exists ps, getProps tg = Ok ps.
Proof.
  unfold getProps, match_all.
  pose proof (@match_rounds_whole re_attribute (S (length tg)) tg) as H.
  destruct (match_rounds (S (length tg)) re_attribute tg) as [|w ws];
    [now eexists|].
  revert H. generalize (w :: ws) as ms. clear.
  induction ms as [|a ms IH]; intros H; simpl; [now eexists|].
  destruct (H a (or_introl eq_refl)) as (t & ps & Hex & ->).
  destruct (split_two _ _ (attribute_match_has_equals _ Hex))
    as (k & v & l & Hsp).
  unfold attribute_of at 1. rewrite Hsp.
  destruct IH as (bs & ->); [intros; apply H; now right|].
  now eexists.
Qed.

(** [findNextElement], with the cursor operations carried out. *)
Lemma findNextElement_eq ctx :
  findNextElement ctx =
  let s := drop_spaces (source ctx) in
  match exec_anchored re_open_start s with
  | None => Ok (None, {| source := s |})
  | Some _ =>
      match exec_anchored re_open_tag s with
      | None => Throw TypeError
      | Some match2 =>
          let tg := grp 1 match2 in
          match getProps tg with
          | Ok ps =>
              Ok (Some (ElementNode tg (getTagName tg)
                          (test re_self_closing tg) ps []),
                  {| source := drop_spaces (skipn (length tg) s) |})
          | Throw e => Throw e
          | Fuel => Fuel
          end
      end
  end.
Proof.
  unfold findNextElement, bind at 1. rewrite removeHeadSpaces_eq.
  unfold bind at 1, get_source. cbn [source].
  destruct (exec_anchored re_open_start _); [|reflexivity].
  destruct (exec_anchored re_open_tag _); [|reflexivity].
  unfold bind at 1, cutHeadStr, slice. cbn [source].
  unfold bind at 1. rewrite removeHeadSpaces_eq. cbn [source].
  unfold bind, lift, ret. cbv zeta.
  destruct (getProps _); reflexivity.
Qed.

Lemma findNextElement_cases ctx :
  findNextElement_spec ctx (findNextElement ctx).
Proof.
  rewrite findNextElement_eq. cbv zeta.
  destruct (exec_anchored re_open_start _) eqn:E1.
  - assert (Hs : starts_with_lt_alnum (drop_spaces (source ctx)) = true).
    { destruct (starts_with_lt_alnum _) eqn:Hs; [reflexivity|].
      apply open_start_none in Hs. congruence. }
    pose proof (open_tag_none _ Hs) as Hnone.
    destruct (exec_anchored re_open_tag _) as [match2|] eqn:E2;
      [|apply fne_throw; tauto].
    assert (Hg : gt_before_line_end (drop_spaces (source ctx)) = true).
    { destruct (gt_before_line_end _); [reflexivity|].
      destruct Hnone as [_ Hnone]. discriminate (Hnone eq_refl). }
    destruct (open_tag_match _ Hs E2) as (rest & Hu & _ & Hd).
    pose proof (getProps_cases (grp 1 match2)) as Hp.
    destruct (getProps_returns (grp 1 match2)) as (ps & Hps).
    rewrite Hps in *.
    destruct (upto_first_split _ _ Hu) as [Hsplit _].
    assert (Hrest : skipn (length (grp 1 match2))
                      (drop_spaces (source ctx)) = rest).
    { rewrite Hsplit at 1. rewrite skipn_app, skipn_all, Nat.sub_diag.
      reflexivity. }
    rewrite Hrest. now apply fne_element.
  - apply open_start_none in E1. now apply fne_none.
Qed.

(* ================================================================= *)
(** ** [isNextCloseTag] *)

Lemma eqb_eq a b : Js.eqb a b = true <-> a = b.
Proof.
  revert b; induction a as [|x a IH]; intros [|y b]; simpl;
    try (split; [discriminate | congruence]); [tauto|].
  unfold char_eqb. rewrite andb_true_iff, N.eqb_eq, IH.
  split; [intros [-> ->]; reflexivity | intros [= -> ->]; auto].
Qed.

(** A greedy star takes the whole run when the continuation accepts
    anything. *)
Lemma star_greedy_const c (k : cont) ps0 :
  (forall t, k t = Some ps0) ->
  forall s, star_greedy c k s = Some (take_while c s, ps0).
Proof.
  intros Hk s; induction s as [|x s IH]; simpl.
  - now rewrite Hk.
  - destruct (c x); [now rewrite IH | now rewrite Hk].
Qed.

(** The capture of the close-name pattern is the name of the close tag at
    the head of the input. *)
Lemma close_name_capture s :
  match exec_anchored re_close_name s with
  | Some m => close_tag_name s = Some (grp 1 m)
  | None => close_tag_name s = None
  end.
Proof.
  unfold exec_anchored, re_close_name, close_tag_name. simpl.
  destruct s as [|a [|b [|x s]]]; simpl; try reflexivity.
  - destruct (lt_sign a); reflexivity.
  - destruct (lt_sign a); simpl; [|reflexivity].
    destruct (slash b); reflexivity.
  - destruct (lt_sign a); simpl; [|reflexivity].
    destruct (slash b); simpl; [|reflexivity].
    destruct (alnum_i x); simpl; [|reflexivity].
    rewrite (@star_greedy_const name_char _ [[]]) by reflexivity.
    unfold grp, mk_match; simpl. reflexivity.
Qed.

(** The close-tag pattern on an input whose head is a close tag: the match,
    when there is one, is the prefix that ends at the first [>]. *)
Lemma close_tag_match s m :
  close_tag_name s <> None ->
  exec_anchored re_close_tag s = Some m ->
  exists rest, upto_first 62%N s = Some (grp 1 m, rest).
Proof.
  unfold exec_anchored, re_close_tag, close_tag_name. simpl.
  destruct s as [|a [|b [|x s]]]; try congruence.
  destruct (lt_sign a) eqn:Ha; simpl; [|congruence].
  destruct (slash b) eqn:Hb; simpl; [|congruence].
  destruct (alnum_i x) eqn:Hx; simpl; [|congruence]. intros _.
  destruct (dot x) eqn:Dx; simpl; [|discriminate].
  match goal with
  | |- context [star_lazy dot ?K s] =>
      destruct (star_lazy dot K s) as [[p ps]|] eqn:E; [|discriminate];
      apply (@star_lazy_stops_at_first dot K 62%N) in E
  end.
  - destruct E as (rest & -> & Hp & Hn & Hk). simpl in Hk.
    injection Hk as <-. intros [= <-]. exists rest.
    unfold grp, mk_match; simpl.
    unfold lt_sign, slash, chr in Ha, Hb; simpl in Ha, Hb.
    apply N.eqb_eq in Ha, Hb; subst a b.
    assert (Hx62 : N.eqb x 62%N = false).
    { destruct (N.eqb x 62%N) eqn:E; [|reflexivity].
      apply N.eqb_eq in E; subst x. discriminate Hx. }
    unfold char_eqb; simpl. rewrite Hx62.
    now rewrite upto_first_app by assumption.
  - intros [|z t]; [congruence|]. unfold gt_sign, chr; simpl.
    destruct (N.eqb z 62%N) eqn:Ez; [|congruence].
    apply N.eqb_eq in Ez; subst z. intros _. now exists t.
  - intros t. unfold gt_sign, chr; simpl. discriminate.
Qed.

(** The close-tag pattern, on an input whose head is a close tag, fails
    exactly when no [>] comes before the end of the first line. *)
Lemma close_tag_none s :
  close_tag_name s <> None ->
  exec_anchored re_close_tag s = None <-> gt_before_line_end s = false.
Proof.
  unfold exec_anchored, re_close_tag, close_tag_name.
  destruct s as [|a [|b [|x s]]]; try congruence.
  destruct (lt_sign a) eqn:Ha; simpl andb; [|congruence].
  destruct (slash b) eqn:Hb; simpl andb; [|congruence].
  destruct (alnum_i x) eqn:Hx; [|congruence]. intros _.
  cbn [exec_at]. rewrite Ha, Hb.
  destruct (alnum_dot _ Hx) as [Dx Gx]. rewrite Dx.
  cbn [gt_before_line_end]. rewrite Gx.
  unfold dot in Dx. apply negb_true_iff in Dx. rewrite Dx.
  unfold lt_sign, slash, chr in Ha, Hb; simpl in Ha, Hb.
  apply N.eqb_eq in Ha, Hb; subst a b.
  simpl N.eqb. cbn [line_terminator one_of existsb N.eqb Pos.eqb orb].
  rewrite <- lazy_dot_until_gt. unfold star.
  destruct (star_lazy dot _ s) as [[? ?]|]; simpl; split; congruence.
Qed.

(** [isNextCloseTag], with the cursor operations carried out. *)
Lemma isNextCloseTag_eq tn ctx :
  isNextCloseTag tn ctx =
  let s := drop_spaces (source ctx) in
  match exec_anchored re_close_name s with
  | None => Ok (false, {| source := s |})
  | Some m =>
      if Js.eqb (grp 1 m) tn then
        match exec_anchored re_close_tag s with
        | None => Throw TypeError
        | Some tagMatch =>
            Ok (true, {| source := skipn (length (grp 1 tagMatch)) s |})
        end
      else Ok (false, {| source := s |})
  end.
Proof.
  unfold isNextCloseTag, bind at 1. rewrite removeHeadSpaces_eq.
  unfold bind at 1, get_source. cbn [source].
  destruct (exec_anchored re_close_name _); [|reflexivity].
  destruct (Js.eqb _ _); [|reflexivity].
  destruct (exec_anchored re_close_tag _); reflexivity.
Qed.

Lemma isNextCloseTag_cases tn ctx :
  isNextCloseTag_spec tn ctx (isNextCloseTag tn ctx).
Proof.
  rewrite isNextCloseTag_eq. cbv zeta.
  pose proof (close_name_capture (drop_spaces (source ctx))) as Hn.
  destruct (exec_anchored re_close_name _) as [m|].
  - destruct (Js.eqb (grp 1 m) tn) eqn:E.
    + apply eqb_eq in E. rewrite E in Hn.
      pose proof (@close_tag_none (drop_spaces (source ctx))
                    ltac:(congruence)) as Hnone.
      destruct (exec_anchored re_close_tag _) as [tm|] eqn:E2;
        [|apply inct_throw; tauto].
      assert (Hg : gt_before_line_end (drop_spaces (source ctx)) = true).
      { destruct (gt_before_line_end _); [reflexivity|].
        destruct Hnone as [_ Hnone]. discriminate (Hnone eq_refl). }
      destruct (@close_tag_match (drop_spaces (source ctx)) tm)
        as (rest & Hu); auto; [congruence|].
      destruct (upto_first_split _ _ Hu) as [Hsplit _].
      assert (Hrest : skipn (length (grp 1 tm)) (drop_spaces (source ctx))
                      = rest).
      { rewrite Hsplit at 1. rewrite skipn_app, skipn_all, Nat.sub_diag.
        reflexivity. }
      rewrite Hrest. eapply inct_yes; eauto.
    + apply inct_no. rewrite Hn. intros [= Heq].
      rewrite Heq in E. assert (Js.eqb tn tn = true) by now apply eqb_eq.
      congruence.
  - apply inct_no. rewrite Hn. discriminate.
Qed.

(* ================================================================= *)
(** ** The lexical classifier *)

Lemma take_while_app c t x rest :
  forallb c t = true -> c x = false ->
  take_while c (t ++ x :: rest) = t.
Proof.
  induction t as [|y t IH]; simpl; intros Ht Hx.
  - now rewrite Hx.
  - apply andb_prop in Ht as [Hy Ht]. rewrite Hy. now rewrite IH.
Qed.

(** The three text patterns begin alike: a lazy non-empty run without [<],
    captured, then a second capture that opens with [<].  The first
    capture is the whole text before the first [<]. *)
Lemma text_then_tag tail s ps :
  exec_at ([LParen; Plus Lazy not_lt; RParen; LParen; Char lt_sign] ++ tail) s
    = Some ps ->
  exists t rest tailps,
    s = t ++ 60%N :: rest /\ t <> [] /\ t = take_while not_lt s /\
    ps = [[]; t; []; []; [60%N]] ++ tailps /\
    exec_at tail rest = Some tailps.
Proof.
  simpl. destruct s as [|x s]; [discriminate|].
  destruct (not_lt x) eqn:Hx; [|discriminate].
  match goal with
  | |- context [star_lazy not_lt ?K s] =>
      destruct (star_lazy not_lt K s) as [[p ps']|] eqn:E; [|discriminate];
      destruct (@star_lazy_sound not_lt K _ _ _ E) as (rest0 & -> & Hp & Hk)
  end.
  intros [= <-].
  destruct rest0 as [|y rest]; [discriminate|].
  destruct (lt_sign y) eqn:Hy; [|discriminate].
  unfold lt_sign, chr in Hy; simpl in Hy. apply N.eqb_eq in Hy; subst y.
  destruct (exec_at tail rest) as [tailps|] eqn:Et; [|discriminate].
  simpl in Hk. injection Hk as <-.
  exists (x :: p), rest, tailps.
  split; [reflexivity|]. split; [discriminate|].
  split; [|split; [reflexivity | exact Et]].
  change (x :: p ++ 60%N :: rest) with ((x :: p) ++ 60%N :: rest).
  rewrite take_while_app; auto. simpl. now rewrite Hx, Hp.
Qed.

(** The first capture of each text pattern is the text before the first
    [<], and the character after that [<] is the one the pattern asks
    for. *)
Lemma text_self_close_capture s m :
  isTextAndSelfCloseTag s = Some m ->
  grp 1 m = take_while not_lt s /\ grp 1 m <> [] /\
  exists x rest, s = grp 1 m ++ 60%N :: x :: rest /\ alnum_i x = true.
Proof.
  unfold isTextAndSelfCloseTag, exec_anchored.
  destruct (exec_at re_text_self_close s) as [ps|] eqn:E; [|discriminate].
  intros [= <-].
  apply (text_then_tag
           [Char alnum_i; Star Lazy dot; Char blank; Char slash; Char gt_sign;
            RParen]) in E.
  destruct E as (t & rest & tailps & Hs & Hne & Ht & -> & Htail).
  unfold grp, mk_match; simpl. rewrite <- Ht.
  repeat split; auto.
  simpl in Htail. destruct rest as [|x rest]; [discriminate|].
  destruct (alnum_i x) eqn:Hx; [|discriminate]. now exists x, rest.
Qed.

Lemma text_finish_capture s m :
  isTextAndFinishTag s = Some m ->
  grp 1 m = take_while not_lt s /\ grp 1 m <> [] /\
  exists rest, s = grp 1 m ++ 60%N :: 47%N :: rest.
Proof.
  unfold isTextAndFinishTag, exec_anchored.
  destruct (exec_at re_text_finish s) as [ps|] eqn:E; [|discriminate].
  intros [= <-].
  apply (text_then_tag
           [Char slash; Char alnum_i; Star Lazy dot; Char gt_sign; RParen])
    in E.
  destruct E as (t & rest & tailps & Hs & Hne & Ht & -> & Htail).
  unfold grp, mk_match; simpl. rewrite <- Ht.
  repeat split; auto.
  simpl in Htail. destruct rest as [|x rest]; [discriminate|].
  destruct (slash x) eqn:Hx; [|discriminate].
  unfold slash, chr in Hx; simpl in Hx. apply N.eqb_eq in Hx; subst x.
  now exists rest.
Qed.

Lemma text_start_capture s m :
  isTextAndStartTag s = Some m ->
  grp 1 m = take_while not_lt s /\ grp 1 m <> [] /\ grp 2 m <> [] /\
  (exists rest, s = grp 1 m ++ grp 2 m ++ rest) /\
  exists x rest, s = grp 1 m ++ 60%N :: x :: rest /\ alnum_i x = true.
Proof.
  unfold isTextAndStartTag, exec_anchored.
  destruct (exec_at re_text_start s) as [ps|] eqn:E; [|discriminate].
  intros [= <-].
  apply (text_then_tag
           [Char alnum_i; Star Lazy dot; Char gt_sign; RParen]) in E.
  destruct E as (t & rest & tailps & Hs & Hne & Ht & -> & Htail).
  unfold grp, mk_match; simpl. rewrite <- Ht.
  split; [reflexivity|]. split; [assumption|].
  simpl in Htail. destruct rest as [|x rest]; [discriminate|].
  destruct (alnum_i x) eqn:Hx; [|discriminate].
  destruct (star_lazy dot _ rest) as [[p ps']|] eqn:E; [|discriminate].
  apply star_lazy_sound in E as (rest0 & -> & Hp & Hk).
  destruct rest0 as [|y rest0]; [discriminate|].
  destruct (gt_sign y); [|discriminate]. simpl in Hk. injection Hk as <-.
  injection Htail as <-. simpl.
  split; [discriminate|]. split.
  - exists rest0. rewrite Hs at 1. now rewrite <- app_assoc.
  - now exists x, (p ++ y :: rest0).
Qed.

(** The two tag patterns of the classifier need [<] at the head of the
    input. *)
Lemma tag_patterns_need_lt s :
  take_while not_lt s <> [] ->
  isStartOrSelfFinishTag s = None /\ isFinishTag s = None.
Proof.
  unfold isStartOrSelfFinishTag, isFinishTag, exec_anchored,
    re_start_or_self, re_finish.
  destruct s as [|x s]; simpl; [tauto|].
  unfold not_lt, lt_sign, chr; simpl.
  destruct (N.eqb x 60); simpl; [congruence | tauto].
Qed.

(** [getNextTextAndElement] always returns; it moves the cursor past the
    leading blanks only. *)
Lemma getNextTextAndElement_eq ctx :
  getNextTextAndElement ctx =
  let s := drop_spaces (source ctx) in
  Ok (match isStartOrSelfFinishTag s with
      | Some m =>
          {| te_text := []; te_tag := grp 1 m;
             te_tagName := getTagName (grp 1 m); te_selftag := [] |}
      | None =>
      match isFinishTag s with
      | Some _ =>
          {| te_text := []; te_tag := []; te_tagName := [];
             te_selftag := [] |}
      | None =>
      match isTextAndSelfCloseTag s with
      | Some m =>
          {| te_text := trim (grp 1 m); te_tag := []; te_tagName := [];
             te_selftag := grp 2 m |}
      | None =>
      match isTextAndFinishTag s with
      | Some m =>
          {| te_text := trim (grp 1 m); te_tag := []; te_tagName := [];
             te_selftag := [] |}
      | None =>
      match isTextAndStartTag s with
      | Some m =>
          {| te_text := grp 1 m; te_tag := grp 2 m;
             te_tagName := getTagName (grp 2 m); te_selftag := [] |}
      | None =>
          {| te_text := []; te_tag := []; te_tagName := getTagName [];
             te_selftag := [] |}
      end end end end end,
      {| source := s |}).
Proof.
  unfold getNextTextAndElement, bind at 1. rewrite removeHeadSpaces_eq.
  unfold bind, get_source, ret. cbn [source]. cbv zeta.
  destruct (isStartOrSelfFinishTag _); [reflexivity|].
  destruct (isFinishTag _); [reflexivity|].
  destruct (isTextAndSelfCloseTag _); [reflexivity|].
  destruct (isTextAndFinishTag _); [reflexivity|].
  destruct (isTextAndStartTag _); reflexivity.
Qed.

Lemma getNextTextAndElement_returns ctx :
  exists r, getNextTextAndElement ctx
            = Ok (r, {| source := drop_spaces (source ctx) |}).
Proof. rewrite getNextTextAndElement_eq. eexists; reflexivity. Qed.

(* ================================================================= *)
(** ** Termination of [parseNode] *)

Lemma upto_first_shorter c s p rest :
  upto_first c s = Some (p, rest) -> length rest < length s.
Proof.
  intros H. destruct (upto_first_split _ _ H) as [-> Hne].
  rewrite length_app. destruct p; [congruence | simpl; lia].
Qed.

Lemma findNextElement_len ctx :
  match findNextElement ctx with
  | Ok (Some _, ctx') => len ctx' < len ctx
  | Ok (None, ctx') => len ctx' <= len ctx
  | Throw _ => True
  | Fuel => False
  end.
Proof.
  destruct (findNextElement_cases ctx) as [| |tg rest ps _ _ Hu _ _];
    unfold len; simpl; auto.
  - apply drop_spaces_length.
  - pose proof (drop_spaces_length rest).
    pose proof (upto_first_shorter _ _ Hu).
    pose proof (drop_spaces_length (source ctx)). lia.
Qed.

Lemma isNextCloseTag_len tn ctx :
  match isNextCloseTag tn ctx with
  | Ok (_, ctx') => len ctx' <= len ctx
  | Throw _ => True
  | Fuel => False
  end.
Proof.
  destruct (isNextCloseTag_cases tn ctx) as [| |closeTag rest _ _ Hu];
    unfold len; simpl; auto.
  - apply drop_spaces_length.
  - pose proof (upto_first_shorter _ _ Hu).
    pose proof (drop_spaces_length (source ctx)). lia.
Qed.

(** The loop ends within its [iters] rounds when the guard of the counter
    is due before they run out. *)
Lemma whileLoop_guard rec tn n :
  behaves n rec ->
  forall iters counter cs ctx,
    len ctx < n ->
    count counter <= max counter -> max counter < iters + count counter ->
    match whileLoop rec tn iters counter cs ctx with
    | Ok (_, ctx') => len ctx' <= len ctx
    | Throw _ => True
    | Fuel => False
    end.
Proof.
  intros Hrec.
  induction iters as [|iters IH]; intros counter cs ctx Hn Hc0 Hc.
  - simpl in Hc. lia.
  - cbn [whileLoop]. unfold bind at 1. rewrite removeHeadSpaces_eq.
    unfold bind at 1.
    destruct (getNextTextAndElement_returns
                {| source := drop_spaces (source ctx) |}) as (r & ->).
    cbn [source]. rewrite drop_spaces_idem.
    pose proof (drop_spaces_length (source ctx)) as L0.
    set (ctx0 := {| source := drop_spaces (source ctx) |}).
    assert (L0' : len ctx0 <= len ctx) by exact L0. clearbody ctx0.
    unfold bind at 1.
    (* the text child *)
    match goal with
    | |- context [(if truthy (te_text r) then ?a else ?b) ctx0] =>
        set (step1 := (if truthy (te_text r) then a else b) ctx0)
    end.
    assert (H1 : exists cs1 ctx1, step1 = Ok (cs1, ctx1) /\
                                  len ctx1 <= len ctx0).
    { subst step1. destruct (truthy (te_text r)).
      - unfold bind, cutHeadStr, ret, slice. do 2 eexists.
        split; [reflexivity|]. unfold len; cbn [source].
        rewrite length_skipn. lia.
      - unfold ret. do 2 eexists. split; [reflexivity | lia]. }
    destruct H1 as (cs1 & ctx1 & -> & L1).
    unfold bind at 1.
    (* the element child *)
    match goal with
    | |- context [(if truthy (te_tag r) then ?a else ?b) ctx1] =>
        set (step2 := (if truthy (te_tag r) then a else b) ctx1)
    end.
    assert (H2 : match step2 with
                 | Ok (_, ctx2) => len ctx2 <= len ctx1
                 | Throw _ => True
                 | Fuel => False
                 end).
    { subst step2. destruct (truthy (te_tag r)).
      - unfold bind. specialize (Hrec ctx1 ltac:(lia)).
        destruct (rec ctx1) as [[[nd|] ctx2]| |]; auto.
      - unfold ret. lia. }
    destruct step2 as [[cs2 ctx2]| |]; auto.
    unfold bind at 1.
    pose proof (isNextCloseTag_len tn ctx2) as H3.
    destruct (isNextCloseTag tn ctx2) as [[[|] ctx3]| |]; auto.
    + unfold ret. lia.
    + cbn [count max].
      destruct (max counter <? count counter + 1) eqn:G; [exact I|].
      apply Nat.ltb_ge in G.
      specialize (IH {| count := count counter + 1; max := max counter |}
                     cs2 ctx3 ltac:(lia)).
      cbn [count max] in IH. specialize (IH ltac:(lia) ltac:(lia)).
      destruct (whileLoop rec tn iters _ cs2 ctx3) as [[? ctx4]| |]; auto.
      lia.
Qed.

(** With a budget above the length of the source, [parseNode] ends: it
    returns or throws. *)
Lemma parseNode_behaves fuel : behaves fuel (parseNode fuel).
Proof.
  induction fuel as [|fuel IH]; intros ctx Hn; [lia|].
  cbn [parseNode]. unfold parseNodeBody, bind at 1.
  pose proof (findNextElement_len ctx) as H1.
  destruct (findNextElement ctx) as [[[el|] ctx1]| |]; auto.
  destruct (isSelfClosing el); [unfold ret; lia|].
  unfold bind.
  pose proof (@whileLoop_guard (parseNode fuel) (tagName el) fuel IH
                31 {| count := 0; max := 30 |} [] ctx1) as H2.
  cbn [count max] in H2. specialize (H2 ltac:(lia) ltac:(lia) ltac:(lia)).
  destruct (whileLoop _ _ _ _ _ ctx1) as [[cs ctx2]| |]; auto.
  unfold ret. lia.
Qed.

Theorem parse_total html : parse html <> Fuel.
Proof.
  unfold parse.
  pose proof (@parseNode_behaves (S (length html)) {| source := html |}) as H.
  unfold len in H; cbn [source] in H. specialize (H ltac:(lia)).
  destruct (parseNode _ _) as [[? ?]| |]; [discriminate..|tauto].
Qed.

(** *** The budget does not change the result *)

Lemma bind_mono {A B} (m m' : M A) (f f' : A -> M B) ctx :
  (m ctx <> Fuel -> m' ctx = m ctx) ->
  (forall a c, f a c <> Fuel -> f' a c = f a c) ->
  bind m f ctx <> Fuel -> bind m' f' ctx = bind m f ctx.
Proof.
  unfold bind. intros Hm Hf H.
  rewrite Hm by (destruct (m ctx); congruence).
  destruct (m ctx) as [[a c]| |]; auto.
Qed.

Lemma whileLoop_mono (rec rec' : M (option Node)) tn :
  (forall ctx, rec ctx <> Fuel -> rec' ctx = rec ctx) ->
  forall iters counter cs ctx,
    whileLoop rec tn iters counter cs ctx <> Fuel ->
    whileLoop rec' tn iters counter cs ctx
    = whileLoop rec tn iters counter cs ctx.
Proof.
  intros Hrec. induction iters as [|iters IH]; intros counter cs ctx.
  - simpl. congruence.
  - cbn [whileLoop].
    apply bind_mono; [reflexivity | intros _ ctx0].
    apply bind_mono; [reflexivity | intros r ctx1].
    apply bind_mono; [reflexivity | intros cs1 ctx2].
    apply bind_mono.
    + destruct (truthy (te_tag r)); [|reflexivity].
      apply bind_mono; [apply Hrec | reflexivity].
    + intros cs2 ctx3.
      apply bind_mono; [reflexivity | intros [|] ctx4]; [reflexivity|].
      destruct (_ <? _); [reflexivity | apply IH].
Qed.

Lemma parseNodeBody_mono (rec rec' : M (option Node)) :
  (forall ctx, rec ctx <> Fuel -> rec' ctx = rec ctx) ->
  forall ctx, parseNodeBody rec ctx <> Fuel ->
              parseNodeBody rec' ctx = parseNodeBody rec ctx.
Proof.
  intros Hrec ctx. unfold parseNodeBody.
  apply bind_mono; [reflexivity | intros [el|] ctx1]; [|reflexivity].
  destruct (isSelfClosing el); [reflexivity|].
  apply bind_mono; [|reflexivity].
  now apply whileLoop_mono.
Qed.

Lemma parseNode_mono fuel : forall ctx,
  parseNode fuel ctx <> Fuel -> parseNode (S fuel) ctx = parseNode fuel ctx.
Proof.
  induction fuel as [|fuel IH]; intros ctx.
  - simpl. congruence.
  - change (parseNode (S (S fuel))) with (parseNodeBody (parseNode (S fuel))).
    change (parseNode (S fuel) ctx)
      with (parseNodeBody (parseNode fuel) ctx).
    now apply parseNodeBody_mono.
Qed.

(** Any budget above the length of the source gives the result of
    [parse]. *)
Theorem parseNode_fuel_irrelevant html fuel :
  length html < fuel ->
  parseNode fuel {| source := html |} = parse html.
Proof.
  intros H. pose proof (parse_total html) as Hf. unfold parse in *.
  remember (S (length html)) as f eqn:Ef.
  assert (exists d, fuel = d + f) as [d ->] by (exists (fuel - f); lia).
  clear H Ef. induction d as [|d IH]; [reflexivity|].
  change (S d + f) with (S (d + f)).
  rewrite parseNode_mono; [exact IH|]. now rewrite IH.
Qed.

(* ================================================================= *)
(** ** The self-closing test *)

(** The self-closing pattern, anchored at the end, matches at the head of
    an input exactly when the input is blank, slash, [>]. *)
Lemma self_closing_at s :
  exec_at re_self_closing s <> None <-> s = lit " />".
Proof.
  unfold re_self_closing. simpl. unfold blank, slash, gt_sign, chr. simpl.
  split.
  - destruct s as [|a s]; [congruence|].
    destruct (N.eqb a 32) eqn:Ha; [|congruence].
    destruct s as [|b s]; [simpl; congruence|].
    destruct (N.eqb b 47) eqn:Hb; [|simpl; congruence].
    destruct s as [|c s]; [simpl; congruence|].
    destruct (N.eqb c 62) eqn:Hc; [|simpl; congruence].
    destruct s as [|d s]; [|simpl; congruence].
    apply N.eqb_eq in Ha, Hb, Hc. subst. reflexivity.
  - intros ->. simpl. discriminate.
Qed.

Lemma exec_from_some r : forall s i,
  exec_from r i s <> None <->
  exists front rest, s = front ++ rest /\ exec_at r rest <> None.
Proof.
  induction s as [|x s IH]; intros i; simpl.
  - destruct (exec_at r []) eqn:E.
    + split; [|discriminate]. intros _. exists [], []. now rewrite E.
    + split; [congruence|]. intros ([|? ?] & rest & Hs & Hr);
        [simpl in Hs; subst rest|discriminate]; congruence.
  - destruct (exec_at r (x :: s)) eqn:E.
    + split; [|discriminate]. intros _. exists [], (x :: s). now rewrite E.
    + rewrite IH. split.
      * intros (front & rest & -> & Hr). now exists (x :: front), rest.
      * intros ([|y front] & rest & Hs & Hr); simpl in Hs.
        -- subst rest. congruence.
        -- injection Hs as -> ->. now exists front, rest.
Qed.

(** The self-closing test holds exactly for the texts that end with
    blank, slash, [>]. *)
Lemma test_self_closing tg :
  test re_self_closing tg = true <-> ends_with (lit " />") tg.
Proof.
  unfold test, exec, ends_with.
  pose proof (exec_from_some re_self_closing tg 0) as H.
  destruct (exec_from re_self_closing 0 tg).
  - split; [|reflexivity]. intros _.
    destruct (proj1 H ltac:(discriminate)) as (front & rest & -> & Hr).
    apply self_closing_at in Hr. subst rest. now exists front.
  - split; [discriminate|]. intros (front & ->).
    exfalso. apply (proj2 H); [|reflexivity].
    exists front, (lit " />"). split; [reflexivity|].
    now apply self_closing_at.
Qed.

(* ================================================================= *)
(** ** Theorems about [findNextElement] and [isNextCloseTag] *)

(** C5.  The element [findNextElement] produces has [isSelfClosing = true]
    if and only if its tag text ends with a blank followed by [/>]; the
    tag [<img/>], written without the blank, gives [isSelfClosing =
    false]. *)
Theorem isSelfClosing_iff_blank_slash_gt :
  (forall ctx el ctx',
     findNextElement ctx = Ok (Some el, ctx') ->
     (isSelfClosing el = true <-> ends_with (lit " />") (tag el))) /\
  (exists el ctx',
     findNextElement {| source := lit "<img/>" |} = Ok (Some el, ctx') /\
     tag el = lit "<img/>" /\ isSelfClosing el = false).
Proof.
  split.
  - intros ctx el ctx' H.
    destruct (findNextElement_cases ctx); try discriminate.
    injection H as <- <-. cbn [isSelfClosing tag].
    apply test_self_closing.
  - do 2 eexists. split; [vm_compute; reflexivity|]. split; reflexivity.
Qed.

Lemma isSelfClosing_iff_blank_slash_gt_witness :
  isSelfClosing
    (ElementNode (lit "<br />") (lit "br") true [] []) = true <->
  ends_with (lit " />") (lit "<br />").
Proof.
  apply (proj1 isSelfClosing_iff_blank_slash_gt
           {| source := lit "<br />rest" |}
           (ElementNode (lit "<br />") (lit "br") true [] [])
           {| source := lit "rest" |}).
  vm_compute. reflexivity.
Defined.

(** C6.  When the source, after its leading blanks, does not begin with
    [<] followed by a letter or digit, [parseNode] returns [null]: no
    element, no fault; only the leading blanks have been consumed. *)
Theorem parseNode_null_without_open_tag fuel ctx :
  starts_with_lt_alnum (drop_spaces (source ctx)) = false ->
  parseNode (S fuel) ctx
  = Ok (None, {| source := drop_spaces (source ctx) |}).
Proof.
  intros H. cbn [parseNode]. unfold parseNodeBody, bind.
  destruct (findNextElement_cases ctx); try congruence. reflexivity.
Qed.

Lemma parseNode_null_without_open_tag_witness :
  parseNode 1 {| source := lit "  hello <b>" |}
  = Ok (None, {| source := lit "hello <b>" |}).
Proof.
  apply (@parseNode_null_without_open_tag 0 {| source := lit "  hello <b>" |}).
  vm_compute. reflexivity.
Defined.

(** C10, as the code has it.  When [findNextElement] returns an element,
    its [tag] is the prefix of the source (taken after the leading
    blanks) that ends at the first [>], whether or not that [>] stands
    inside a quoted attribute value; the cursor is advanced past that
    prefix and past the blanks that follow it, and the rest is left in
    the source. *)
Theorem findNextElement_tag_ends_at_first_gt ctx el ctx' :
  findNextElement ctx = Ok (Some el, ctx') ->
  exists rest,
    upto_first 62%N (drop_spaces (source ctx)) = Some (tag el, rest) /\
    source ctx' = drop_spaces rest.
Proof.
  intros H. destruct (findNextElement_cases ctx); try discriminate.
  injection H as <- <-. exists rest. split; [assumption | reflexivity].
Qed.

(** The example of the claim: the open tag of a [div] whose [title] is the
    double-quoted value [a>b].  The tag ends at the [>] inside the value,
    and the source is left at the [b] of the value. *)
Lemma findNextElement_tag_ends_at_first_gt_witness :
  exists rest,
    upto_first 62%N
      (drop_spaces (lit "<div title=" ++ dq ++ lit "a>b" ++ dq ++ lit ">"))
    = Some (lit "<div title=" ++ dq ++ lit "a>", rest) /\
    lit "b" ++ dq ++ lit ">" = drop_spaces rest.
Proof.
  apply (@findNextElement_tag_ends_at_first_gt
           {| source := lit "<div title=" ++ dq ++ lit "a>b" ++ dq
                        ++ lit ">" |}
           (ElementNode (lit "<div title=" ++ dq ++ lit "a>") (lit "div")
              false [] [])
           {| source := lit "b" ++ dq ++ lit ">" |}).
  vm_compute. reflexivity.
Defined.

(** C10, as stated, fails when a blank follows the [>]: with the
    double-quoted value [a> b] in the place of [a>b], the tag again ends
    at the [>] inside the value, the text after it begins with a blank,
    and the cursor is left at the [b], one character further than the
    prefix. *)
Lemma findNextElement_skips_blanks_after_tag :
  let src := lit "<div title=" ++ dq ++ lit "a> b" ++ dq ++ lit ">" in
  exists el ctx',
    findNextElement {| source := src |} = Ok (Some el, ctx') /\
    tag el = lit "<div title=" ++ dq ++ lit "a>" /\
    src = tag el ++ lit " b" ++ dq ++ lit ">" /\
    source ctx' = lit "b" ++ dq ++ lit ">" /\
    source ctx' <> lit " b" ++ dq ++ lit ">".
Proof.
  do 2 eexists. split; [vm_compute; reflexivity|].
  repeat split; try reflexivity. discriminate.
Qed.

(** C3, as the code has it.  When [isNextCloseTag] reports no match, the
    cursor has lost its leading blanks and nothing else, and the source
    does not continue with a close tag of the expected name; when it
    reports a match, the source continues, after its leading blanks, with
    a close tag of that name, and exactly the leading blanks and the text
    of the close tag, up to its first [>], have been consumed. *)
Theorem isNextCloseTag_frame tn ctx b ctx' :
  isNextCloseTag tn ctx = Ok (b, ctx') ->
  let s := drop_spaces (source ctx) in
  (b = false -> source ctx' = s /\ close_tag_name s <> Some tn) /\
  (b = true ->
   close_tag_name s = Some tn /\
   exists closeTag, upto_first 62%N s = Some (closeTag, source ctx')).
Proof.
  intros H. cbv zeta.
  destruct (isNextCloseTag_cases tn ctx); try discriminate;
    injection H as <- <-; split; try discriminate; intros _.
  - split; [reflexivity | assumption].
  - split; [assumption|]. now exists closeTag.
Qed.

Lemma isNextCloseTag_frame_witness :
  (lit "<p>" = drop_spaces (lit "  <p>") /\
   close_tag_name (drop_spaces (lit "  <p>")) <> Some (lit "div")) /\
  (close_tag_name (drop_spaces (lit " </div >x")) = Some (lit "div") /\
   exists closeTag,
     upto_first 62%N (drop_spaces (lit " </div >x"))
     = Some (closeTag, lit "x")).
Proof.
  split.
  - apply (proj1 (@isNextCloseTag_frame
                    (lit "div") {| source := lit "  <p>" |}
                    false {| source := lit "<p>" |} eq_refl) eq_refl).
  - apply (proj2 (@isNextCloseTag_frame
                    (lit "div") {| source := lit " </div >x" |}
                    true {| source := lit "x" |} eq_refl) eq_refl).
Defined.

(** C3, as stated, fails on a source with leading blanks: no match is
    reported on [ x], and the cursor is left at [x]. *)
Lemma isNextCloseTag_no_match_moves_cursor :
  isNextCloseTag (lit "div") {| source := lit " x" |}
  = Ok (false, {| source := lit "x" |}) /\
  lit "x" <> lit " x".
Proof. split; [vm_compute; reflexivity | discriminate]. Qed.

(* ================================================================= *)
(** ** Theorems about the classifier *)

(** C4.  In the text-then-self-closing-tag case and in the
    text-then-end-tag case the classifier returns the leading text (the
    text before the first [<]) trimmed; in the text-then-start-tag case
    (taken when the self-closing pattern does not match) it returns the
    leading text as it stands, untrimmed, together with the tag. *)
Theorem classifier_trim_asymmetry ctx r ctx' :
  getNextTextAndElement ctx = Ok (r, ctx') ->
  let s := drop_spaces (source ctx) in
  let leading := take_while not_lt s in
  (isTextAndSelfCloseTag s <> None -> te_text r = trim leading) /\
  (isTextAndFinishTag s <> None -> te_text r = trim leading) /\
  (isTextAndSelfCloseTag s = None -> isTextAndStartTag s <> None ->
   te_text r = leading /\ te_tag r <> []).
Proof.
  rewrite getNextTextAndElement_eq. cbv zeta. intros [= <- <-].
  set (s := drop_spaces (source ctx)).
  split; [|split].
  - destruct (isTextAndSelfCloseTag s) as [m|] eqn:E3; [|congruence].
    intros _. destruct (text_self_close_capture _ E3) as (H1 & Hne & _).
    rewrite H1 in Hne. destruct (tag_patterns_need_lt _ Hne) as [-> ->].
    cbn [te_text]. now rewrite H1.
  - destruct (isTextAndFinishTag s) as [m|] eqn:E4; [|congruence].
    intros _. destruct (text_finish_capture _ E4) as (H1 & Hne & rest & Hs).
    rewrite H1 in Hne. destruct (tag_patterns_need_lt _ Hne) as [-> ->].
    destruct (isTextAndSelfCloseTag s) as [m3|] eqn:E3.
    + exfalso.
      destruct (text_self_close_capture _ E3)
        as (H3 & _ & x & rest3 & Hs3 & Hx).
      rewrite H1 in Hs. rewrite H3 in Hs3. rewrite Hs3 in Hs at 1.
      apply app_inv_head in Hs. injection Hs as -> _. discriminate Hx.
    + cbn [te_text]. now rewrite H1.
  - intros E3 H5. rewrite E3.
    destruct (isTextAndStartTag s) as [m|] eqn:E5; [|congruence].
    destruct (text_start_capture _ E5)
      as (H1 & Hne & Hne2 & _ & x & rest & Hs & Hx).
    rewrite H1 in Hne. destruct (tag_patterns_need_lt _ Hne) as [-> ->].
    destruct (isTextAndFinishTag s) as [m4|] eqn:E4.
    + exfalso.
      destruct (text_finish_capture _ E4) as (H4 & _ & rest4 & Hs4).
      rewrite H1 in Hs. rewrite H4 in Hs4. rewrite Hs4 in Hs at 1.
      apply app_inv_head in Hs. injection Hs as <- _. discriminate Hx.
    + cbn [te_text te_tag]. split; [now rewrite H1 | assumption].
Qed.

Lemma classifier_trim_asymmetry_witness :
  lit "a" = trim (take_while not_lt (drop_spaces (lit "a <br />"))) /\
  lit "a" = trim (take_while not_lt (drop_spaces (lit "a </b>"))) /\
  (lit "a " = take_while not_lt (drop_spaces (lit "a <b>")) /\
   lit "<b>" <> []).
Proof.
  split; [|split].
  - apply (proj1 (@classifier_trim_asymmetry
             {| source := lit "a <br />" |}
             {| te_text := lit "a"; te_tag := []; te_tagName := [];
                te_selftag := lit "<br />" |}
             {| source := lit "a <br />" |} eq_refl)).
    vm_compute. discriminate.
  - apply (proj1 (proj2 (@classifier_trim_asymmetry
             {| source := lit "a </b>" |}
             {| te_text := lit "a"; te_tag := []; te_tagName := [];
                te_selftag := [] |}
             {| source := lit "a </b>" |} eq_refl))).
    vm_compute. discriminate.
  - apply (proj2 (proj2 (@classifier_trim_asymmetry
             {| source := lit "a <b>" |}
             {| te_text := lit "a "; te_tag := lit "<b>";
                te_tagName := lit "b"; te_selftag := [] |}
             {| source := lit "a <b>" |} eq_refl))).
    + vm_compute. reflexivity.
    + vm_compute. discriminate.
Defined.

(* ================================================================= *)
(** ** The shape of the tree *)

Lemma children_ok_snoc cs c :
  children_ok cs = true -> is_child c = true -> tree_ok c = true ->
  children_ok (cs ++ [c]) = true.
Proof.
  unfold children_ok. intros H1 H2 H3.
  rewrite forallb_app, H1. simpl. now rewrite H2, H3.
Qed.

Lemma whileLoop_children_ok rec tn :
  yields_elements rec ->
  forall iters counter cs ctx cs' ctx',
    children_ok cs = true ->
    whileLoop rec tn iters counter cs ctx = Ok (cs', ctx') ->
    children_ok cs' = true.
Proof.
  intros Hrec. induction iters as [|iters IH];
    intros counter cs ctx cs' ctx' Hcs; [discriminate|].
  cbn [whileLoop]. unfold bind at 1. rewrite removeHeadSpaces_eq.
  unfold bind at 1.
  destruct (getNextTextAndElement_returns
              {| source := drop_spaces (source ctx) |}) as (r & ->).
  unfold bind at 1.
  match goal with
  | |- context [(if truthy (te_text r) then ?a else ?b) ?c] =>
      set (step1 := (if truthy (te_text r) then a else b) c)
  end.
  assert (H1 : exists cs1 ctx1, step1 = Ok (cs1, ctx1) /\
                                children_ok cs1 = true).
  { subst step1. destruct (truthy (te_text r)).
    - unfold bind, cutHeadStr, ret. do 2 eexists.
      split; [reflexivity|]. now apply children_ok_snoc.
    - unfold ret. do 2 eexists. split; [reflexivity | assumption]. }
  destruct H1 as (cs1 & ctx1 & -> & Hcs1).
  unfold bind at 1.
  match goal with
  | |- context [(if truthy (te_tag r) then ?a else ?b) ctx1] =>
      set (step2 := (if truthy (te_tag r) then a else b) ctx1)
  end.
  assert (H2 : forall cs2 ctx2, step2 = Ok (cs2, ctx2) ->
                                children_ok cs2 = true).
  { subst step2. destruct (truthy (te_tag r)).
    - unfold bind. intros cs2 ctx2.
      destruct (rec ctx1) as [[[nd|] ctx2']| |] eqn:E; try discriminate.
      + unfold ret. intros [= <- <-].
        destruct (Hrec _ _ _ E) as [He Ht].
        apply children_ok_snoc; auto. destruct nd; auto; discriminate.
      + unfold ret. now intros [= <- <-].
    - unfold ret. now intros cs2 ctx2 [= <- <-]. }
  destruct step2 as [[cs2 ctx2]| |]; try discriminate.
  specialize (H2 _ _ eq_refl).
  unfold bind at 1.
  destruct (isNextCloseTag tn ctx2) as [[[|] ctx3]| |]; try discriminate.
  - unfold ret. now intros [= <- <-].
  - destruct (_ <? _); [discriminate|]. now apply IH.
Qed.

Lemma parseNode_yields_elements fuel : yields_elements (parseNode fuel).
Proof.
  induction fuel as [|fuel IH]; intros ctx n ctx'; [discriminate|].
  cbn [parseNode]. unfold parseNodeBody, bind at 1.
  destruct (findNextElement_cases ctx) as [| |tg rest ps Hs Hg Hu Hd Hps];
    try discriminate.
  cbn [isSelfClosing tagName].
  destruct (test re_self_closing tg) eqn:Hsc.
  - unfold ret. intros [= <- <-]. split; [reflexivity|].
    simpl. now rewrite Hps.
  - unfold bind.
    destruct (whileLoop _ _ _ _ _ _) as [[cs ctx2]| |] eqn:E;
      try discriminate.
    unfold ret. intros [= <- <-]. split; [reflexivity|].
    apply whileLoop_children_ok in E; auto.
    simpl. fold (children_ok cs). now rewrite Hps, E.
Qed.

Lemma tree_ok_in_tree d n :
  in_tree d n -> tree_ok n = true -> tree_ok d = true.
Proof.
  induction 1 as [|n c Hin _ IH]; auto.
  intros Hn. apply IH. destruct n; simpl in *; try tauto.
  apply andb_prop in Hn as [Hn _]. apply andb_prop in Hn as [_ Hn].
  rewrite forallb_forall in Hn. specialize (Hn _ Hin).
  now apply andb_prop in Hn as [_ Hn].
Qed.

(** C9.  When [parseNode] returns an element, every node of its tree keeps
    elements and texts only in [children] (never an attribute), attributes
    only in [props], and has an empty [children] when it is
    self-closing. *)
Theorem parseNode_tree_shape fuel ctx el ctx' :
  parseNode fuel ctx = Ok (Some el, ctx') ->
  type el = ELEMENT /\
  forall d, in_tree d el ->
    (forall c, In c (children d) -> type c = ELEMENT \/ type c = TEXT) /\
    (forall p, In p (props d) -> type p = ATTRIBUTE) /\
    (isSelfClosing d = true -> children d = []).
Proof.
  intros H. destruct (parseNode_yields_elements _ _ H) as [He Ht].
  split; [destruct el; simpl in *; congruence|].
  intros d Hd. pose proof (tree_ok_in_tree Hd Ht) as Hok.
  destruct d as [tg tn sc ps cs| |]; simpl in *;
    [|repeat split; intros; try tauto..].
  apply andb_prop in Hok as [Hok Hsc]. apply andb_prop in Hok as [Hps Hcs].
  rewrite forallb_forall in Hps, Hcs. repeat split.
  - intros c Hc. specialize (Hcs _ Hc). apply andb_prop in Hcs as [Hcs _].
    destruct c; simpl in *; auto; discriminate.
  - intros p Hp. specialize (Hps _ Hp). destruct p; simpl in *;
      auto; discriminate.
  - intros ->. destruct cs; [reflexivity | discriminate].
Qed.

Lemma parseNode_tree_shape_witness :
  type (ElementNode (lit "<p>") (lit "p") false []
          [TextNode (lit "a");
           ElementNode (lit "<br />") (lit "br") true [] []]) = ELEMENT /\
  forall d,
    in_tree d (ElementNode (lit "<p>") (lit "p") false []
                 [TextNode (lit "a");
                  ElementNode (lit "<br />") (lit "br") true [] []]) ->
    (forall c, In c (children d) -> type c = ELEMENT \/ type c = TEXT) /\
    (forall p, In p (props d) -> type p = ATTRIBUTE) /\
    (isSelfClosing d = true -> children d = []).
Proof.
  apply (@parseNode_tree_shape 3 {| source := lit "<p>a<br /></p>" |}
           _ {| source := [] |}).
  vm_compute. reflexivity.
Defined.

(* ================================================================= *)
(** ** Parsing the documents of the specification *)

(** C7.  Parsing [<div class=x>hello</div>], the value [x] in double
    quotes, returns an element whose children are exactly one text node
    with content [hello], and leaves the source empty: the close tag is
    consumed whole. *)
Theorem parse_div_hello :
  exists el,
    parse (lit "<div class=" ++ dq ++ lit "x" ++ dq ++ lit ">hello</div>")
    = Ok (Some el, {| source := [] |}) /\
    type el = ELEMENT /\
    children el = [TextNode (lit "hello")].
Proof.
  eexists. split; [vm_compute; reflexivity|]. split; reflexivity.
Qed.

(** C8.  Parsing [<div><span>a</span></div>] returns an element named
    [div] whose children are exactly one element named [span], whose
    children are exactly one text node with content [a]. *)
Theorem parse_div_span_a :
  exists el span ctx',
    parse (lit "<div><span>a</span></div>") = Ok (Some el, ctx') /\
    type el = ELEMENT /\ tagName el = lit "div" /\
    children el = [span] /\
    type span = ELEMENT /\ tagName span = lit "span" /\
    children span = [TextNode (lit "a")].
Proof.
  do 3 eexists. split; [vm_compute; reflexivity|].
  repeat split; reflexivity.
Qed.

(* ================================================================= *)
(** ** Where the code leaves its specification *)

(** [findNextElement] throws exactly on the sources that, after their
    leading blanks, begin with [<] and a letter or digit and have no [>]
    before the end of their first line. *)
Lemma findNextElement_throws_iff ctx e :
  findNextElement ctx = Throw e <->
  e = TypeError /\
  starts_with_lt_alnum (drop_spaces (source ctx)) = true /\
  gt_before_line_end (drop_spaces (source ctx)) = false.
Proof.
  destruct (findNextElement_cases ctx) as [Hs|Hs Hg|tg rest ps Hs Hg _ _ _].
  - split; [discriminate | intros (_ & H & _); congruence].
  - split; [intros [= <-]; auto | intros (-> & _); reflexivity].
  - split; [discriminate | intros (_ & _ & H); congruence].
Qed.

(** C1.  [parseNode] ends on every input, but not only by returning or by
    the fault of the loop guard: when the source begins with an open tag
    that has no [>] before the end of its line, as [<div] does, the
    pattern of the whole tag does not match and [findNextElement] reads
    index 1 of [null], a [TypeError]. *)
Theorem parse_unterminated_open_tag_throws_TypeError :
  (forall html, parse html <> Fuel) /\
  (forall html,
     starts_with_lt_alnum (drop_spaces html) = true ->
     gt_before_line_end (drop_spaces html) = false ->
     parse html = Throw TypeError) /\
  parse (lit "<div") = Throw TypeError.
Proof.
  split; [exact parse_total|]. split; [|vm_compute; reflexivity].
  intros html Hs Hg. unfold parse. cbn [parseNode].
  unfold parseNodeBody, bind.
  assert (H : findNextElement {| source := html |} = Throw TypeError)
    by (apply findNextElement_throws_iff; auto).
  now rewrite H.
Qed.

(** C2.  [getProps] returns the attribute of [<img src=a.png />] (value
    in double quotes) as the claim says: name [src], value [a.png].  On
    [<a href=x=1>] (value in double quotes) it finds the one attribute but
    splits it at both [=] signs: the value it returns is the text between
    them, a double quote and [x], not the text after the first [=] with
    its quotes stripped. *)
Theorem getProps_truncates_value_at_second_equals :
  getProps (lit "<img src=" ++ dq ++ lit "a.png" ++ dq ++ lit " />")
  = Ok [AttributeNode (lit "src") (lit "a.png")] /\
  getProps (lit "<a href=" ++ dq ++ lit "x=1" ++ dq ++ lit ">")
  = Ok [AttributeNode (lit "href") (dq ++ lit "x")] /\
  dq ++ lit "x" <> lit "x=1".
Proof.
  split; [vm_compute; reflexivity|].
  split; [vm_compute; reflexivity | discriminate].
Qed.

(* ================================================================= *)
(** ** Further properties of the cursor primitives *)

Lemma drop_spaces_suffix s : is_suffix (drop_spaces s) s.
Proof.
  induction s as [|x s (c & IH)]; simpl.
  - now exists [].
  - destruct (space x); [|now exists []].
    exists (x :: c). simpl. now rewrite <- IH.
Qed.

Lemma drop_spaces_head s :
  match drop_spaces s with
  | x :: _ => space x = false
  | [] => True
  end.
Proof.
  induction s as [|x s IH]; simpl; [exact I|].
  destruct (space x) eqn:E; [exact IH | exact E].
Qed.

Lemma is_suffix_refl s : is_suffix s s.
Proof. now exists []. Qed.

Lemma is_suffix_trans a b c :
  is_suffix a b -> is_suffix b c -> is_suffix a c.
Proof.
  intros (x & ->) (y & ->). exists (y ++ x). now rewrite app_assoc.
Qed.

Lemma skipn_suffix n (s : jsstring) : is_suffix (skipn n s) s.
Proof. exists (firstn n s). now rewrite firstn_skipn. Qed.

Lemma upto_first_suffix c s p rest :
  upto_first c s = Some (p, rest) -> is_suffix rest s.
Proof. intros H. exists p. now apply upto_first_split in H as [-> _]. Qed.

(** X1.  [removeHeadSpaces] always returns; the cursor it leaves is a
    suffix of the source that does not begin with a tab, carriage return,
    newline, form feed or space, and what it has cut off holds only such
    characters: it strips the whole leading run, whatever its length, and
    a second call changes nothing. *)
Theorem removeHeadSpaces_strips_whole_run ctx :
  exists ctx' cut,
    removeHeadSpaces ctx = Ok (tt, ctx') /\
    source ctx = cut ++ source ctx' /\
    forallb space cut = true /\
    match source ctx' with x :: _ => space x = false | [] => True end /\
    removeHeadSpaces ctx' = Ok (tt, ctx').
Proof.
  exists {| source := drop_spaces (source ctx) |}.
  exists (take_while space (source ctx)).
  rewrite !removeHeadSpaces_eq. cbn [source]. rewrite drop_spaces_idem.
  repeat split.
  - induction (source ctx) as [|x s IH]; simpl; [reflexivity|].
    destruct (space x); simpl; congruence.
  - induction (source ctx) as [|x s IH]; simpl; [reflexivity|].
    destruct (space x) eqn:E; simpl; [now rewrite E | reflexivity].
  - apply drop_spaces_head.
Qed.

(** X2.  Leading blanks are insignificant to [parseNode]: a source and the
    same source behind any run of tabs, carriage returns, newlines, form
    feeds and spaces give the same result, remaining cursor included. *)
Theorem parse_ignores_leading_blanks ws html :
  forallb space ws = true -> parse (ws ++ html) = parse html.
Proof.
  intros Hws.
  assert (Hd : forall s, drop_spaces (ws ++ s) = drop_spaces s).
  { intros s. induction ws as [|x ws IH]; simpl in *; [reflexivity|].
    apply andb_prop in Hws as [-> Hws]. auto. }
  assert (Hp : forall fuel s,
             parseNode (S fuel) {| source := ws ++ s |}
             = parseNode (S fuel) {| source := s |}).
  { intros fuel s. cbn [parseNode]. unfold parseNodeBody, bind at 1 3.
    rewrite !findNextElement_eq. cbn [source]. now rewrite Hd. }
  unfold parse at 1. rewrite Hp.
  apply parseNode_fuel_irrelevant. rewrite length_app. lia.
Qed.

Lemma parse_ignores_leading_blanks_witness :
  parse (lit "  " ++ lit "<b>x</b>") = parse (lit "<b>x</b>").
Proof.
  apply (@parse_ignores_leading_blanks (lit "  ") (lit "<b>x</b>")).
  vm_compute. reflexivity.
Defined.

(* ================================================================= *)
(** ** The cursor only moves forward *)

Lemma findNextElement_consumes : consumes findNextElement.
Proof.
  intros ctx a ctx' H.
  destruct (findNextElement_cases ctx) as [| |tg rest ps _ _ Hu _ _];
    try discriminate; injection H as <- <-; cbn [source].
  - apply drop_spaces_suffix.
  - eapply is_suffix_trans; [apply drop_spaces_suffix|].
    eapply is_suffix_trans; [eapply upto_first_suffix, Hu|].
    apply drop_spaces_suffix.
Qed.

Lemma isNextCloseTag_consumes tn : consumes (isNextCloseTag tn).
Proof.
  intros ctx a ctx' H.
  destruct (isNextCloseTag_cases tn ctx) as [| |closeTag rest _ _ Hu];
    try discriminate; injection H as <- <-; cbn [source].
  - apply drop_spaces_suffix.
  - eapply is_suffix_trans; [eapply upto_first_suffix, Hu|].
    apply drop_spaces_suffix.
Qed.

Lemma bind_consumes {A B} (m : M A) (f : A -> M B) :
  consumes m -> (forall a, consumes (f a)) -> consumes (bind m f).
Proof.
  intros Hm Hf ctx b ctx'. unfold bind.
  destruct (m ctx) as [[a ctx1]| |] eqn:E; try discriminate.
  intros H. eapply is_suffix_trans; [eapply Hf, H | eapply Hm, E].
Qed.

Lemma ret_consumes {A} (a : A) : consumes (ret a).
Proof. intros ctx ? ? [= <- <-]. apply is_suffix_refl. Qed.

Lemma removeHeadSpaces_consumes : consumes removeHeadSpaces.
Proof.
  intros ctx a ctx'. rewrite removeHeadSpaces_eq. intros [= <- <-].
  apply drop_spaces_suffix.
Qed.

Lemma getNextTextAndElement_consumes : consumes getNextTextAndElement.
Proof.
  intros ctx a ctx'. rewrite getNextTextAndElement_eq. intros [= <- <-].
  apply drop_spaces_suffix.
Qed.

Lemma cutHeadStr_consumes n : consumes (cutHeadStr n).
Proof.
  intros ctx a ctx'. unfold cutHeadStr, slice. intros [= <- <-].
  apply skipn_suffix.
Qed.

Lemma whileLoop_consumes rec tn :
  consumes rec ->
  forall iters counter cs, consumes (whileLoop rec tn iters counter cs).
Proof.
  intros Hrec. induction iters as [|iters IH]; intros counter cs.
  - intros ctx a ctx'. discriminate.
  - cbn [whileLoop].
    apply bind_consumes; [apply removeHeadSpaces_consumes | intros _].
    apply bind_consumes; [apply getNextTextAndElement_consumes | intros r].
    apply bind_consumes.
    { destruct (truthy (te_text r)); [|apply ret_consumes].
      apply bind_consumes; [apply cutHeadStr_consumes | intros _].
      apply ret_consumes. }
    intros cs1. apply bind_consumes.
    { destruct (truthy (te_tag r)); [|apply ret_consumes].
      apply bind_consumes; [exact Hrec | intros [n|]; apply ret_consumes]. }
    intros cs2. apply bind_consumes; [apply isNextCloseTag_consumes|].
    intros [|]; [apply ret_consumes|].
    destruct (_ <? _); [intros ? ? ?; discriminate | apply IH].
Qed.

Lemma parseNode_consumes fuel : consumes (parseNode fuel).
Proof.
  induction fuel as [|fuel IH]; [intros ? ? ?; discriminate|].
  cbn [parseNode]. unfold parseNodeBody.
  apply bind_consumes; [apply findNextElement_consumes|].
  intros [el|]; [|apply ret_consumes].
  destruct (isSelfClosing el); [apply ret_consumes|].
  apply bind_consumes; [now apply whileLoop_consumes | intros cs].
  apply ret_consumes.
Qed.

(** X3.  [parseNode] only consumes from the head of the cursor: when it
    returns, the remaining source is a suffix of the source it was given,
    and a strictly shorter one when an element is returned.  It never
    rewinds the cursor and never rewrites what it has not consumed. *)
Theorem parseNode_cursor_moves_forward fuel ctx r ctx' :
  parseNode fuel ctx = Ok (r, ctx') ->
  is_suffix (source ctx') (source ctx) /\
  (r <> None -> length (source ctx') < length (source ctx)).
Proof.
  intros H. split; [eapply parseNode_consumes, H|].
  destruct fuel as [|fuel]; [discriminate|].
  revert H. cbn [parseNode]. unfold parseNodeBody, bind at 1.
  pose proof (findNextElement_len ctx) as L.
  destruct (findNextElement ctx) as [[[el|] ctx1]| |] eqn:E;
    try discriminate.
  - unfold len in L.
    destruct (isSelfClosing el); [intros [= <- <-] _; exact L|].
    unfold bind.
    destruct (whileLoop _ _ _ _ _ ctx1) as [[cs ctx2]| |] eqn:W;
      try discriminate.
    intros [= <- <-] _.
    pose proof (@whileLoop_consumes (parseNode fuel) (tagName el)
                  (parseNode_consumes fuel) _ _ _ _ _ _ W) as (c & Hc).
    rewrite Hc in L. rewrite length_app in L. lia.
  - intros [= <- <-]. congruence.
Qed.

Lemma parseNode_cursor_moves_forward_witness :
  is_suffix (lit " tail") (lit " <i>x</i> tail") /\
  (Some (ElementNode (lit "<i>") (lit "i") false [] [TextNode (lit "x")])
   <> None ->
   length (lit " tail") < length (lit " <i>x</i> tail")).
Proof.
  apply (@parseNode_cursor_moves_forward 2
           {| source := lit " <i>x</i> tail" |}
           (Some (ElementNode (lit "<i>") (lit "i") false []
                    [TextNode (lit "x")]))
           {| source := lit " tail" |}).
  vm_compute. reflexivity.
Defined.

(* ================================================================= *)
(** ** When the close-tag probe throws *)

(** X4.  [isNextCloseTag] throws exactly when the source, after its
    leading blanks, begins with a close tag of the expected name that has
    no [>] before the end of its line, and what it throws is the
    [TypeError] of reading index 1 of [null]; a close tag of any other name
    never makes it throw. *)
Theorem isNextCloseTag_throws_iff tn ctx e :
  isNextCloseTag tn ctx = Throw e <->
  e = TypeError /\
  close_tag_name (drop_spaces (source ctx)) = Some tn /\
  gt_before_line_end (drop_spaces (source ctx)) = false.
Proof.
  destruct (isNextCloseTag_cases tn ctx) as [Hn|Hn Hg|closeTag rest Hn Hg _].
  - split; [discriminate | intros (_ & H & _); congruence].
  - split; [intros [= <-]; auto | intros (-> & _); reflexivity].
  - split; [discriminate | intros (_ & _ & H); congruence].
Qed.

(* ================================================================= *)
(** ** The fault of the loop guard *)

(** On the empty source, and on a source that begins with a close tag, the
    classifier reports neither text nor tag. *)
Lemma classifier_reports_nothing s :
  s = [] \/ close_tag_name s <> None ->
  exists r, getNextTextAndElement {| source := s |}
            = Ok (r, {| source := s |}) /\
            te_text r = [] /\ te_tag r = [].
Proof.
  intros [-> | H].
  - eexists. split; [vm_compute; reflexivity | split; reflexivity].
  - unfold close_tag_name in H.
    destruct s as [|a [|b [|x s]]]; try congruence.
    destruct (lt_sign a) eqn:Ha; simpl andb in H; [|congruence].
    destruct (slash b) eqn:Hb; simpl andb in H; [|congruence].
    unfold lt_sign, slash, chr in Ha, Hb; simpl in Ha, Hb.
    apply N.eqb_eq in Ha, Hb; subst a b.
    rewrite getNextTextAndElement_eq. cbn [source].
    change (drop_spaces (60 :: 47 :: x :: s)%N) with (60 :: 47 :: x :: s)%N.
    cbv zeta.
    assert (E1 : isStartOrSelfFinishTag (60 :: 47 :: x :: s)%N = None)
      by reflexivity.
    assert (E3 : isTextAndSelfCloseTag (60 :: 47 :: x :: s)%N = None)
      by reflexivity.
    assert (E4 : isTextAndFinishTag (60 :: 47 :: x :: s)%N = None)
      by reflexivity.
    assert (E5 : isTextAndStartTag (60 :: 47 :: x :: s)%N = None)
      by reflexivity.
    rewrite E1, E3, E4, E5.
    destruct (isFinishTag _); eexists; (split; [reflexivity|]);
      split; reflexivity.
Qed.

(** A round that finds neither text nor tag nor the close tag leaves the
    cursor where it was; the rounds repeat until the guard throws. *)
Lemma whileLoop_stuck rec tn s :
  drop_spaces s = s ->
  (exists r, getNextTextAndElement {| source := s |}
             = Ok (r, {| source := s |}) /\
             te_text r = [] /\ te_tag r = []) ->
  isNextCloseTag tn {| source := s |} = Ok (false, {| source := s |}) ->
  forall iters counter cs,
    count counter <= max counter -> max counter < iters + count counter ->
    whileLoop rec tn iters counter cs {| source := s |} = Throw LoopError.
Proof.
  intros Hd (r & Hr & Ht & Hg) Hc.
  induction iters as [|iters IH]; intros counter cs H0 H1; [simpl in H1; lia|].
  cbn [whileLoop]. unfold bind at 1. rewrite removeHeadSpaces_eq.
  cbn [source]. rewrite Hd.
  unfold bind at 1. rewrite Hr.
  unfold bind at 1. rewrite Ht. cbn [truthy]. unfold ret at 1.
  unfold bind at 1. rewrite Hg. cbn [truthy]. unfold ret at 1.
  unfold bind at 1. rewrite Hc.
  cbn [count max].
  destruct (max counter <? count counter + 1) eqn:G; [reflexivity|].
  apply Nat.ltb_ge in G.
  apply (IH {| count := count counter + 1; max := max counter |});
    cbn [count max]; lia.
Qed.

(** X5.  An element that is not self-closing and whose open tag is
    followed (after blanks) by the end of the input, or by the close tag of
    an element of another name, makes [parseNode] throw the error of the
    loop guard: it neither returns a partial element nor loops.  Names are
    compared exactly, so a close tag that differs only by case counts as
    another name. *)
Theorem parseNode_faults_on_unclosed_element fuel ctx el ctx1 :
  findNextElement ctx = Ok (Some el, ctx1) ->
  isSelfClosing el = false ->
  (source ctx1 = [] \/
   exists n, close_tag_name (source ctx1) = Some n /\ n <> tagName el) ->
  parseNode (S fuel) ctx = Throw LoopError.
Proof.
  intros Hf Hsc Hs. cbn [parseNode]. unfold parseNodeBody, bind at 1.
  rewrite Hf, Hsc. unfold bind. destruct ctx1 as [s]. cbn [source] in Hs.
  assert (Hd : drop_spaces s = s).
  { destruct Hs as [-> | (n & Hn & _)]; [reflexivity|].
    unfold close_tag_name in Hn. destruct s as [|a [|b [|x s]]];
      try discriminate.
    destruct (lt_sign a) eqn:Ha; [|discriminate].
    unfold lt_sign, chr in Ha; simpl in Ha. apply N.eqb_eq in Ha; subst a.
    reflexivity. }
  rewrite (@whileLoop_stuck (parseNode fuel) (tagName el) s).
  - reflexivity.
  - exact Hd.
  - apply classifier_reports_nothing.
    destruct Hs as [-> | (n & Hn & _)]; [now left | right; congruence].
  - destruct (isNextCloseTag_cases (tagName el) {| source := s |})
      as [Hn|Hn _|closeTag rest Hn _ _]; cbn [source] in *;
      rewrite Hd in *.
    + reflexivity.
    + destruct Hs as [-> | (n & Hn' & Hne)]; [discriminate | congruence].
    + destruct Hs as [-> | (n & Hn' & Hne)]; [discriminate | congruence].
  - cbn [count max]. lia.
  - cbn [count max]. lia.
Qed.

Lemma parseNode_faults_on_unclosed_element_witness :
  parseNode 1 {| source := lit "<P> </p>" |} = Throw LoopError.
Proof.
  apply (@parseNode_faults_on_unclosed_element 0
           {| source := lit "<P> </p>" |}
           (ElementNode (lit "<P>") (lit "P") false [] [])
           {| source := lit "</p>" |}).
  - vm_compute. reflexivity.
  - reflexivity.
  - right. exists (lit "p"). split; [vm_compute; reflexivity|].
    vm_compute. discriminate.
Defined.

(* ================================================================= *)
(** ** What the children of an element are *)

Lemma forallb_take_while c s : forallb c (take_while c s) = true.
Proof.
  induction s as [|x s IH]; simpl; [reflexivity|].
  destruct (c x) eqn:E; simpl; [now rewrite E | reflexivity].
Qed.

Lemma forallb_trimStart (p : char -> bool) s :
  forallb p s = true -> forallb p (trimStart s) = true.
Proof.
  induction s as [|x s IH]; simpl; [reflexivity|].
  intros H. destruct (is_trim_space x); [|exact H].
  apply andb_prop in H as [_ H]. auto.
Qed.

Lemma forallb_rev (p : char -> bool) s :
  forallb p s = true -> forallb p (rev s) = true.
Proof.
  rewrite !forallb_forall. intros H x Hx. apply H. now apply in_rev.
Qed.

Lemma forallb_trim (p : char -> bool) s :
  forallb p s = true -> forallb p (trim s) = true.
Proof.
  intros H. unfold trim, trimEnd.
  now apply forallb_rev, forallb_trimStart, forallb_rev, forallb_trimStart.
Qed.

(** The text the classifier reports holds no [<]. *)
Lemma classifier_text_without_lt ctx r ctx' :
  getNextTextAndElement ctx = Ok (r, ctx') ->
  forallb not_lt (te_text r) = true.
Proof.
  rewrite getNextTextAndElement_eq. cbv zeta. intros [= <- <-].
  set (s := drop_spaces (source ctx)).
  destruct (isStartOrSelfFinishTag s); [reflexivity|].
  destruct (isFinishTag s); [reflexivity|].
  destruct (isTextAndSelfCloseTag s) as [m|] eqn:E3.
  { destruct (text_self_close_capture _ E3) as (-> & _). cbn [te_text].
    apply forallb_trim, forallb_take_while. }
  destruct (isTextAndFinishTag s) as [m|] eqn:E4.
  { destruct (text_finish_capture _ E4) as (-> & _). cbn [te_text].
    apply forallb_trim, forallb_take_while. }
  destruct (isTextAndStartTag s) as [m|] eqn:E5; [|reflexivity].
  destruct (text_start_capture _ E5) as (-> & _). cbn [te_text].
  apply forallb_take_while.
Qed.

(** A property of nodes that holds of what [rec] returns and of the text
    nodes made from the classifier's texts holds of every child the loop
    collects. *)
Lemma whileLoop_Forall (P : Node -> Prop) rec tn :
  (forall ctx n ctx', rec ctx = Ok (Some n, ctx') -> P n) ->
  (forall ctx r ctx',
     getNextTextAndElement ctx = Ok (r, ctx') ->
     truthy (te_text r) = true -> P (TextNode (te_text r))) ->
  forall iters counter cs ctx cs' ctx',
    Forall P cs ->
    whileLoop rec tn iters counter cs ctx = Ok (cs', ctx') ->
    Forall P cs'.
Proof.
  intros Hrec Htext. induction iters as [|iters IH];
    intros counter cs ctx cs' ctx' Hcs; [discriminate|].
  cbn [whileLoop]. unfold bind at 1. rewrite removeHeadSpaces_eq.
  unfold bind at 1.
  destruct (getNextTextAndElement _) as [[r ctx0]| |] eqn:Er;
    try discriminate.
  unfold bind at 1.
  match goal with
  | |- context [(if truthy (te_text r) then ?a else ?b) ctx0] =>
      set (step1 := (if truthy (te_text r) then a else b) ctx0)
  end.
  assert (H1 : exists cs1 ctx1, step1 = Ok (cs1, ctx1) /\ Forall P cs1).
  { subst step1. destruct (truthy (te_text r)) eqn:Et.
    - unfold bind, cutHeadStr, ret. do 2 eexists.
      split; [reflexivity|]. apply Forall_app. split; [assumption|].
      constructor; [|constructor]. eapply Htext; eauto.
    - unfold ret. do 2 eexists. split; [reflexivity | assumption]. }
  destruct H1 as (cs1 & ctx1 & -> & Hcs1).
  unfold bind at 1.
  match goal with
  | |- context [(if truthy (te_tag r) then ?a else ?b) ctx1] =>
      set (step2 := (if truthy (te_tag r) then a else b) ctx1)
  end.
  assert (H2 : forall cs2 ctx2, step2 = Ok (cs2, ctx2) -> Forall P cs2).
  { subst step2. destruct (truthy (te_tag r)).
    - unfold bind. intros cs2 ctx2.
      destruct (rec ctx1) as [[[nd|] ctx2']| |] eqn:E; try discriminate.
      + unfold ret. intros [= <- <-]. apply Forall_app. split; [assumption|].
        constructor; [|constructor]. eapply Hrec, E.
      + unfold ret. now intros [= <- <-].
    - unfold ret. now intros cs2 ctx2 [= <- <-]. }
  destruct step2 as [[cs2 ctx2]| |]; try discriminate.
  specialize (H2 _ _ eq_refl).
  unfold bind at 1.
  destruct (isNextCloseTag tn ctx2) as [[[|] ctx3]| |]; try discriminate.
  - unfold ret. now intros [= <- <-].
  - destruct (_ <? _); [discriminate|]. now apply IH.
Qed.

Lemma elements_in_snoc cs n :
  elements_in (cs ++ [n]) = elements_in cs + (if is_element n then 1 else 0).
Proof.
  unfold elements_in. rewrite filter_app, length_app. simpl.
  destruct (is_element n); reflexivity.
Qed.

Lemma texts_in_snoc cs n :
  texts_in (cs ++ [n]) = texts_in cs + (if is_text n then 1 else 0).
Proof.
  unfold texts_in. rewrite filter_app, length_app. simpl.
  destruct (is_text n); reflexivity.
Qed.

(** Each round adds at most one text and at most one element, and the
    guard allows at most [max + 1] rounds. *)
Lemma whileLoop_width rec tn :
  (forall ctx n ctx', rec ctx = Ok (Some n, ctx') -> is_element n = true) ->
  forall iters counter cs ctx cs' ctx',
    count counter <= max counter ->
    whileLoop rec tn iters counter cs ctx = Ok (cs', ctx') ->
    elements_in cs' + count counter <= elements_in cs + (max counter + 1) /\
    texts_in cs' + count counter <= texts_in cs + (max counter + 1).
Proof.
  intros Hrec. induction iters as [|iters IH];
    intros counter cs ctx cs' ctx' Hc; [discriminate|].
  cbn [whileLoop]. unfold bind at 1. rewrite removeHeadSpaces_eq.
  unfold bind at 1.
  destruct (getNextTextAndElement _) as [[r ctx0]| |]; try discriminate.
  unfold bind at 1.
  match goal with
  | |- context [(if truthy (te_text r) then ?a else ?b) ctx0] =>
      set (step1 := (if truthy (te_text r) then a else b) ctx0)
  end.
  assert (H1 : exists cs1 ctx1, step1 = Ok (cs1, ctx1) /\
                                elements_in cs1 = elements_in cs /\
                                texts_in cs1 <= texts_in cs + 1).
  { subst step1. destruct (truthy (te_text r)).
    - unfold bind, cutHeadStr, ret. do 2 eexists.
      split; [reflexivity|].
      rewrite elements_in_snoc, texts_in_snoc. simpl. lia.
    - unfold ret. do 2 eexists. split; [reflexivity | lia]. }
  destruct H1 as (cs1 & ctx1 & -> & He1 & Ht1).
  unfold bind at 1.
  match goal with
  | |- context [(if truthy (te_tag r) then ?a else ?b) ctx1] =>
      set (step2 := (if truthy (te_tag r) then a else b) ctx1)
  end.
  assert (H2 : forall cs2 ctx2, step2 = Ok (cs2, ctx2) ->
                                elements_in cs2 <= elements_in cs1 + 1 /\
                                texts_in cs2 = texts_in cs1).
  { subst step2. destruct (truthy (te_tag r)).
    - unfold bind. intros cs2 ctx2.
      destruct (rec ctx1) as [[[nd|] ctx2']| |] eqn:E; try discriminate.
      + unfold ret. intros [= <- <-].
        rewrite elements_in_snoc, texts_in_snoc.
        specialize (Hrec _ _ _ E). rewrite Hrec.
        destruct nd; try discriminate. simpl. lia.
      + unfold ret. intros [= <- <-]. lia.
    - unfold ret. intros cs2 ctx2 [= <- <-]. lia. }
  destruct step2 as [[cs2 ctx2]| |]; try discriminate.
  specialize (H2 _ _ eq_refl). destruct H2 as [He2 Ht2].
  unfold bind at 1.
  destruct (isNextCloseTag tn ctx2) as [[[|] ctx3]| |]; try discriminate.
  - unfold ret. intros [= <- <-]. lia.
  - cbn [count max].
    destruct (max counter <? count counter + 1) eqn:G; [discriminate|].
    apply Nat.ltb_ge in G. intros W.
    apply IH in W; cbn [count max] in *; lia.
Qed.

Lemma node_all_in_tree p d n :
  in_tree d n -> node_all p n = true -> p d = true.
Proof.
  induction 1 as [|n c Hin _ IH].
  - destruct d; simpl; intros H; apply andb_prop in H; tauto.
  - intros Hn. apply IH. destruct n; simpl in *; try tauto.
    apply andb_prop in Hn as [_ Hn].
    rewrite forallb_forall in Hn. auto.
Qed.

Lemma parseNode_node_all fuel : forall ctx n ctx',
  parseNode fuel ctx = Ok (Some n, ctx') ->
  node_all (fun m => text_ok m && width_ok m) n = true.
Proof.
  induction fuel as [|fuel IH]; intros ctx n ctx'; [discriminate|].
  cbn [parseNode]. unfold parseNodeBody, bind at 1.
  destruct (findNextElement_cases ctx) as [| |tg rest ps Hs Hg Hu Hd Hps];
    try discriminate.
  cbn [isSelfClosing tagName].
  destruct (test re_self_closing tg).
  - unfold ret. intros [= <- <-]. reflexivity.
  - unfold bind.
    destruct (whileLoop _ _ _ _ _ _) as [[cs ctx2]| |] eqn:E;
      try discriminate.
    unfold ret. intros [= <- <-].
    pose proof E as Hw.
    apply whileLoop_width in Hw;
      [|intros c0 n0 c0' Hn0; eapply parseNode_yields_elements, Hn0
       |cbn [count max]; lia].
    cbn [count max] in Hw. change (elements_in []) with 0 in Hw.
    change (texts_in []) with 0 in Hw.
    apply (@whileLoop_Forall
             (fun c => node_all (fun m => text_ok m && width_ok m) c = true))
      in E.
    + cbn [set_children node_all]. unfold width_ok at 1, text_ok at 1.
      cbn [children]. rewrite Forall_forall in E.
      apply andb_true_intro. split; [|apply forallb_forall; exact E].
      apply andb_true_intro. split; [reflexivity|].
      unfold elements_in, texts_in in *.
      apply andb_true_intro. split; apply Nat.leb_le; lia.
    + exact IH.
    + intros c0 r c0' Hr Ht. cbn [node_all]. unfold text_ok, width_ok.
      cbn [children]. rewrite Ht.
      now rewrite (classifier_text_without_lt _ Hr).
    + constructor.
Qed.

Lemma elements_texts_length cs :
  forallb is_child cs = true ->
  length cs = elements_in cs + texts_in cs.
Proof.
  unfold elements_in, texts_in.
  induction cs as [|c cs IH]; simpl; [reflexivity|].
  intros H. apply andb_prop in H as [Hc H].
  destruct c; simpl in *; try discriminate; rewrite IH by assumption; lia.
Qed.

(** X6.  No node of a returned tree has more than 31 elements or more than
    31 texts among its children, hence never more than 62 children: the
    loop of [parseNode] adds at most one text and one element in a round
    and its guard allows 31 rounds.  A longer list of children (32
    elements, say) is never returned. *)
Theorem parseNode_children_bounded fuel ctx el ctx' :
  parseNode fuel ctx = Ok (Some el, ctx') ->
  forall d, in_tree d el ->
    elements_in (children d) <= 31 /\
    texts_in (children d) <= 31 /\
    length (children d) <= 62.
Proof.
  intros H d Hd.
  pose proof (@node_all_in_tree _ _ _ Hd (parseNode_node_all _ _ H)) as Hp.
  apply andb_prop in Hp as [_ Hp]. apply andb_prop in Hp as [He Ht].
  apply Nat.leb_le in He, Ht. repeat split; try assumption.
  destruct (parseNode_yields_elements _ _ H) as [_ Hok].
  pose proof (tree_ok_in_tree Hd Hok) as Hdok.
  rewrite elements_texts_length; [lia|].
  destruct d as [tg tn sc ps cs| |]; try reflexivity.
  simpl in Hdok. apply andb_prop in Hdok as [Hdok _].
  apply andb_prop in Hdok as [_ Hcs]. cbn [children].
  rewrite forallb_forall in *. intros c Hc. specialize (Hcs _ Hc).
  now apply andb_prop in Hcs as [Hcs _].
Qed.

Lemma parseNode_children_bounded_witness :
  elements_in
    (children (ElementNode (lit "<p>") (lit "p") false []
                 [TextNode (lit "a");
                  ElementNode (lit "<br />") (lit "br") true [] []])) <= 31 /\
  texts_in
    (children (ElementNode (lit "<p>") (lit "p") false []
                 [TextNode (lit "a");
                  ElementNode (lit "<br />") (lit "br") true [] []])) <= 31 /\
  length
    (children (ElementNode (lit "<p>") (lit "p") false []
                 [TextNode (lit "a");
                  ElementNode (lit "<br />") (lit "br") true [] []])) <= 62.
Proof.
  apply (@parseNode_children_bounded 3
           {| source := lit "<p>a<br /></p>" |}
           (ElementNode (lit "<p>") (lit "p") false []
              [TextNode (lit "a");
               ElementNode (lit "<br />") (lit "br") true [] []])
           {| source := [] |}).
  - vm_compute. reflexivity.
  - apply in_tree_here.
Defined.

(** X7.  Every text node of a returned tree has a non-empty content that
    holds no [<]: the parser never makes an empty text node, and never
    takes markup into a text. *)
Theorem parseNode_text_nodes fuel ctx el ctx' :
  parseNode fuel ctx = Ok (Some el, ctx') ->
  forall c, in_tree (TextNode c) el -> c <> [] /\ ~ In 60%N c.
Proof.
  intros H c Hd.
  pose proof (@node_all_in_tree _ _ _ Hd (parseNode_node_all _ _ H)) as Hp.
  apply andb_prop in Hp as [Hp _]. unfold text_ok in Hp.
  apply andb_prop in Hp as [Hne Hlt]. split.
  - intros ->. discriminate.
  - rewrite forallb_forall in Hlt. intros Hin.
    specialize (Hlt _ Hin). discriminate.
Qed.

Lemma parseNode_text_nodes_witness :
  lit "a" <> [] /\ ~ In 60%N (lit "a").
Proof.
  apply (@parseNode_text_nodes 3
           {| source := lit "<p>a<br /></p>" |}
           (ElementNode (lit "<p>") (lit "p") false []
              [TextNode (lit "a");
               ElementNode (lit "<br />") (lit "br") true [] []])
           {| source := [] |}).
  - vm_compute. reflexivity.
  - apply in_tree_child with (c := TextNode (lit "a")).
    + left. reflexivity.
    + apply in_tree_here.
Defined.

(* ================================================================= *)
(** ** The name of an element *)

(** A greedy star takes the whole run of its class when the continuation
    accepts what follows the run. *)
Lemma star_greedy_takes_run c (k : cont) : forall s,
  k (drop_while c s) <> None ->
  exists ps, star_greedy c k s = Some (take_while c s, ps) /\
             k (drop_while c s) = Some ps.
Proof.
  induction s as [|x s IH]; simpl; intros H.
  - destruct (k []) as [ps|]; [now exists ps | congruence].
  - destruct (c x).
    + destruct (IH H) as (ps & -> & Hk). now exists ps.
    + destruct (k (x :: s)) as [ps|]; [now exists ps | congruence].
Qed.

Lemma star_greedy_complete c (k : cont) p rest :
  forallb c p = true -> k rest <> None ->
  star_greedy c k (p ++ rest) <> None.
Proof.
  intros Hp Hk. induction p as [|x p IH]; simpl.
  - destruct rest as [|y rest]; simpl.
    + destruct (k []); congruence.
    + destruct (c y); [destruct (star_greedy c k rest) as [[? ?]|]|];
        destruct (k (y :: rest)); congruence.
  - simpl in Hp. apply andb_prop in Hp as [-> Hp]. specialize (IH Hp).
    destruct (star_greedy c k (p ++ rest)) as [[? ?]|]; congruence.
Qed.

Lemma upto_first_shape c s p rest :
  upto_first c s = Some (p, rest) ->
  exists p0, p = p0 ++ [c] /\ ~ In c p0.
Proof.
  revert p rest; induction s as [|x s IH]; simpl; intros p rest;
    [discriminate|].
  unfold char_eqb. destruct (N.eqb x c) eqn:E.
  - apply N.eqb_eq in E; subst x. intros [= <- <-]. now exists [].
  - destruct (upto_first c s) as [[p' r']|]; [|discriminate].
    intros [= <- <-]. destruct (IH _ _ eq_refl) as (p0 & -> & Hn).
    exists (x :: p0). split; [reflexivity|].
    intros [->|Hin]; [rewrite N.eqb_refl in E; discriminate | tauto].
Qed.

Lemma drop_while_app_last c body z :
  c z = false ->
  exists w t, body = w ++ t /\ drop_while c (body ++ [z]) = t ++ [z].
Proof.
  intros Hz. induction body as [|x body (w & t & -> & IH)]; simpl.
  - rewrite Hz. now exists [], [].
  - destruct (c x).
    + now exists (x :: w), t.
    + now exists [], (x :: w ++ t).
Qed.

(** [getTagName] on the text of an open tag: the run of letters and digits
    that follows the [<]. *)
Lemma getTagName_open_tag x body :
  alnum_i x = true -> forallb dot body = true ->
  getTagName (60%N :: x :: body ++ [62%N])
  = x :: take_while alnum_i (body ++ [62%N]).
Proof.
  intros Hx Hb. unfold getTagName. cbn [includes existsb char_eqb N.eqb
    Pos.eqb negb orb].
  unfold exec, re_tag_name. cbn [exec_from exec_at].
  change (lt_sign 60%N) with true. cbv iota.
  assert (Hs : slash x = false).
  { unfold slash, chr. simpl. destruct (N.eqb x 47) eqn:E; [|reflexivity].
    apply N.eqb_eq in E; subst x. discriminate. }
  unfold star. cbn [star_greedy]. rewrite Hs, Hx.
  destruct (@drop_while_app_last alnum_i body 62%N eq_refl)
    as (w & t & Hbody & Hdrop).
  match goal with
  | |- context [star_greedy alnum_i ?K (body ++ [62%N])] =>
      destruct (@star_greedy_takes_run alnum_i K (body ++ [62%N]))
        as (ps & -> & Hk)
  end.
  - unfold char in *. rewrite Hdrop. cbn beta.
    assert (Ht : forallb dot t = true).
    { subst body. rewrite forallb_app in Hb.
      now apply andb_prop in Hb as [_ Hb]. }
    pose proof (@star_greedy_complete dot
                  (exec_at [Char gt_sign]) t [62%N] Ht
                  ltac:(discriminate)) as Hc.
    cbn [exec_at] in Hc.
    match type of Hc with
    | ?a <> None =>
        change (piece [] (join a) <> None);
        destruct a as [[? ?]|]; [discriminate | congruence]
    end.
  - unfold char in *. rewrite Hdrop in Hk. cbn beta in Hk.
    destruct (star_greedy dot _ (t ++ [62%N])) as [[pd psd]|];
      [|discriminate].
    simpl in Hk. injection Hk as <-. reflexivity.
Qed.

(** X8.  The [tagName] of the element [findNextElement] returns is the run
    of letters and digits that follows the [<] of its [tag]; it is never
    empty, and it stops at the first other character, a hyphen or a colon
    included. *)
Theorem findNextElement_tagName ctx el ctx' :
  findNextElement ctx = Ok (Some el, ctx') ->
  tagName el = take_while alnum_i (tl (tag el)) /\ tagName el <> [].
Proof.
  intros H.
  destruct (findNextElement_cases ctx) as [| |tg rest ps Hs Hg Hu Hd Hps];
    try discriminate.
  injection H as <- <-. cbn [tagName tag].
  destruct (upto_first_shape _ _ Hu) as (p0 & -> & Hn).
  apply upto_first_split in Hu as [Hu _].
  unfold starts_with_lt_alnum in Hs.
  destruct (drop_spaces (source ctx)) as [|a [|x s]]; try discriminate.
  apply andb_prop in Hs as [Ha Hx].
  unfold lt_sign, chr in Ha; simpl in Ha. apply N.eqb_eq in Ha; subst a.
  destruct (alnum_dot _ Hx) as [_ Hx62].
  destruct p0 as [|a [|y body]]; simpl in Hu.
  - injection Hu as Hu _. discriminate Hu.
  - injection Hu as _ Hu _. subst x. discriminate Hx62.
  - injection Hu as <- <- _.
    simpl in Hd. apply andb_prop in Hd as [_ Hd].
    rewrite forallb_app in Hd.
    apply andb_prop in Hd as [Hd _].
    change ((60%N :: x :: body) ++ [62%N])
      with (60%N :: x :: body ++ [62%N]).
    rewrite getTagName_open_tag by assumption.
    cbn [tl take_while]. rewrite Hx. split; [reflexivity | discriminate].
Qed.

Lemma findNextElement_tagName_witness :
  lit "my" = take_while alnum_i (tl (lit "<my-item>")) /\ lit "my" <> [].
Proof.
  apply (@findNextElement_tagName
           {| source := lit "<my-item>x" |}
           (ElementNode (lit "<my-item>") (lit "my") false [] [])
           {| source := lit "x" |}).
  vm_compute. reflexivity.
Defined.

(* ================================================================= *)
(** ** The classifier and [findNextElement] agree on the tag *)

Lemma gt_before_line_end_app p rest :
  forallb dot p = true -> gt_before_line_end (p ++ 62%N :: rest) = true.
Proof.
  induction p as [|x p IH]; simpl; intros H; [reflexivity|].
  apply andb_prop in H as [Hx Hp]. unfold dot in Hx.
  apply negb_true_iff in Hx. rewrite Hx.
  destruct (N.eqb x 62); auto.
Qed.

(** A lazy run holds no character at which the continuation would have
    accepted. *)
Lemma star_lazy_not_inside c (k : cont) (a : char) s p ps :
  (forall rest, k (a :: rest) <> None) ->
  star_lazy c k s = Some (p, ps) -> ~ In a p.
Proof.
  intros Hk H Hin.
  destruct (@star_lazy_sound _ _ _ _ _ H) as (rest & -> & _ & _).
  apply in_split in Hin as (l1 & l2 & ->).
  pose proof (@star_lazy_minimal _ _ _ _ _ H (length l1)) as Hmin.
  rewrite length_app in Hmin; simpl in Hmin.
  rewrite <- app_assoc, skipn_app, skipn_all, Nat.sub_diag in Hmin.
  simpl in Hmin. apply (Hk (l2 ++ rest)). apply Hmin. lia.
Qed.

Lemma slash_run_without_gt sl :
  forallb slash sl = true -> ~ In 62%N sl /\ forallb dot sl = true.
Proof.
  induction sl as [|x sl IH]; simpl; [tauto|].
  intros H. apply andb_prop in H as [Hx H].
  unfold slash, chr in Hx; simpl in Hx. apply N.eqb_eq in Hx; subst x.
  destruct (IH H) as [Hn Hd]. split; [|exact Hd].
  intros [E|E]; [discriminate | tauto].
Qed.

(** The match of the start-tag pattern of the classifier is the prefix of
    the input that ends at the first [>]. *)
Lemma start_or_self_match s m :
  isStartOrSelfFinishTag s = Some m ->
  exists rest,
    upto_first 62%N s = Some (grp 1 m, rest) /\
    starts_with_lt_alnum s = true /\ gt_before_line_end s = true /\
    grp 1 m <> [].
Proof.
  unfold isStartOrSelfFinishTag, exec_anchored, re_start_or_self.
  cbn [exec_at]. destruct s as [|a [|x s]]; cbn [piece].
  - discriminate.
  - destruct (lt_sign a); discriminate.
  - destruct (lt_sign a) eqn:Ha; [|discriminate].
    destruct (alnum_i x) eqn:Hx; [|discriminate].
    unfold star. cbn [piece join].
    match goal with
    | |- context [star_lazy dot ?K s] =>
        destruct (star_lazy dot K s) as [[p ps]|] eqn:E; [|discriminate];
        pose proof (@star_lazy_not_inside dot K 62%N s p ps) as Hin;
        destruct (@star_lazy_sound dot K _ _ _ E) as (rest0 & -> & Hp & Hk)
    end.
    assert (Hn : ~ In 62%N p).
    { apply Hin; [|exact E]. intros rest. simpl.
      change (slash 62%N) with false. cbv iota.
      change (gt_sign 62%N) with true. discriminate. }
    clear Hin E.
    destruct (star_greedy slash _ rest0) as [[sl pss]|] eqn:Es;
      [|discriminate].
    apply star_greedy_sound in Es as (rest1 & -> & Hsl & Hk1).
    destruct rest1 as [|g rest]; [discriminate|].
    destruct (gt_sign g) eqn:Hg; [|discriminate].
    unfold gt_sign, chr in Hg; simpl in Hg. apply N.eqb_eq in Hg; subst g.
    simpl in Hk1. injection Hk1 as <-. simpl in Hk. injection Hk as <-.
    intros [= <-].
    unfold lt_sign, chr in Ha; simpl in Ha. apply N.eqb_eq in Ha; subst a.
    destruct (alnum_dot _ Hx) as [Dx Gx].
    destruct (slash_run_without_gt _ Hsl) as [Hnsl Hdsl].
    exists rest.
    assert (Hn0 : ~ In 62%N (60%N :: x :: p ++ sl)).
    { intros [E|[E|E]]; [discriminate | |].
      - subst x. discriminate Gx.
      - apply in_app_or in E. tauto. }
    assert (Hd0 : forallb dot (60%N :: x :: p ++ sl) = true).
    { simpl. rewrite Dx. rewrite forallb_app, Hp, Hdsl. reflexivity. }
    match goal with
    | |- context [grp 1 ?m] =>
        change (grp 1 m) with ((60%N :: x :: p ++ sl) ++ [62%N])
    end.
    assert (Hs : (60%N :: x :: p ++ sl ++ 62%N :: rest : jsstring)
                 = (60%N :: x :: p ++ sl) ++ 62%N :: rest)
      by (simpl; now rewrite <- app_assoc).
    unfold jsstring, char in *. rewrite Hs.
    rewrite upto_first_app by assumption.
    rewrite gt_before_line_end_app by assumption.
    split; [reflexivity|]. split; [simpl; now rewrite Hx|].
    split; [reflexivity | discriminate].
Qed.

(** The second capture of the text-then-start-tag pattern is the prefix,
    ending at the first [>], of what follows the text. *)
Lemma text_start_tag s m :
  isTextAndStartTag s = Some m ->
  exists rest,
    upto_first 62%N (skipn (length (grp 1 m)) s) = Some (grp 2 m, rest) /\
    starts_with_lt_alnum (skipn (length (grp 1 m)) s) = true /\
    gt_before_line_end (skipn (length (grp 1 m)) s) = true.
Proof.
  unfold isTextAndStartTag, exec_anchored.
  destruct (exec_at re_text_start s) as [ps|] eqn:E; [|discriminate].
  intros [= <-].
  apply (text_then_tag
           [Char alnum_i; Star Lazy dot; Char gt_sign; RParen]) in E.
  destruct E as (t & rest & tailps & Hs & Hne & Ht & -> & Htail).
  simpl in Htail. destruct rest as [|x rest]; [discriminate|].
  destruct (alnum_i x) eqn:Hx; [|discriminate].
  match type of Htail with
  | context [star_lazy dot ?K rest] =>
      destruct (star_lazy dot K rest) as [[p ps']|] eqn:E; [|discriminate];
      pose proof (@star_lazy_not_inside dot K 62%N rest p ps') as Hin;
      destruct (@star_lazy_sound dot K _ _ _ E) as (rest0 & -> & Hp & Hk)
  end.
  assert (Hn : ~ In 62%N p).
  { apply Hin; [|exact E]. intros r. simpl.
    change (gt_sign 62%N) with true. discriminate. }
  clear Hin E.
  destruct rest0 as [|g rest0]; [discriminate|].
  destruct (gt_sign g) eqn:Hg; [|discriminate].
  unfold gt_sign, chr in Hg; simpl in Hg. apply N.eqb_eq in Hg; subst g.
  simpl in Hk. injection Hk as <-. injection Htail as <-.
  exists rest0.
  destruct (alnum_dot _ Hx) as [Dx Gx].
  match goal with
  | |- context [grp 1 ?m] =>
      change (grp 1 m) with t;
      change (grp 2 m) with ((60%N :: x :: p) ++ [62%N])
  end.
  assert (Hn0 : ~ In 62%N (60%N :: x :: p)).
  { intros [E|[E|E]]; [discriminate | | tauto]. subst x. discriminate Gx. }
  assert (Hd0 : forallb dot (60%N :: x :: p) = true).
  { simpl. now rewrite Dx, Hp. }
  assert (Hsk : skipn (length t) s = (60%N :: x :: p) ++ 62%N :: rest0).
  { rewrite Hs, skipn_app, skipn_all, Nat.sub_diag. reflexivity. }
  unfold jsstring, char in *. rewrite Hsk.
  rewrite upto_first_app by assumption.
  rewrite gt_before_line_end_app by assumption.
  split; [reflexivity|]. split; [simpl; now rewrite Hx | reflexivity].
Qed.

Lemma drop_spaces_at_tag s :
  starts_with_lt_alnum s = true -> drop_spaces s = s.
Proof.
  unfold starts_with_lt_alnum. destruct s as [|a [|x s]]; try discriminate.
  intros H. apply andb_prop in H as [Ha _].
  unfold lt_sign, chr in Ha; simpl in Ha. apply N.eqb_eq in Ha; subst a.
  reflexivity.
Qed.

(** [findNextElement] on a source that begins with an open tag ending at
    its first [>] returns the element of that tag. *)
Lemma findNextElement_at_tag s tg rest :
  starts_with_lt_alnum s = true ->
  gt_before_line_end s = true ->
  upto_first 62%N s = Some (tg, rest) ->
  exists el ctx2,
    findNextElement {| source := s |} = Ok (Some el, ctx2) /\
    tag el = tg /\ tagName el = getTagName tg.
Proof.
  intros Hs Hg Hu.
  destruct (findNextElement_cases {| source := s |})
    as [Hs'|_ Hg'|tg' rest' ps _ _ Hu' _ _];
    cbn [source] in *; rewrite (drop_spaces_at_tag _ Hs) in *.
  - congruence.
  - congruence.
  - rewrite Hu in Hu'. injection Hu' as <- <-.
    do 2 eexists. split; [reflexivity|]. split; reflexivity.
Qed.

(** X9.  Whenever the classifier reports a tag, the recursive call of
    [parseNode] finds an element there: [findNextElement], run on the
    cursor after the reported text has been cut, returns an element whose
    [tag] and [tagName] are the ones the classifier reported.  It does not
    return [null] and does not throw at the open tag: the second scan of
    the tag agrees with the first. *)
Theorem classifier_tag_is_found ctx r ctx1 :
  getNextTextAndElement ctx = Ok (r, ctx1) ->
  te_tag r <> [] ->
  exists el ctx2,
    findNextElement
      {| source := skipn (length (te_text r)) (source ctx1) |}
    = Ok (Some el, ctx2) /\
    tag el = te_tag r /\ tagName el = te_tagName r.
Proof.
  rewrite getNextTextAndElement_eq. cbv zeta. intros [= <- <-].
  cbn [source]. set (s := drop_spaces (source ctx)).
  destruct (isStartOrSelfFinishTag s) as [m|] eqn:E1.
  { intros _. cbn [te_text te_tag te_tagName length skipn].
    destruct (start_or_self_match _ E1) as (rest & Hu & Hs & Hg & _).
    now apply (@findNextElement_at_tag s (grp 1 m) rest). }
  destruct (isFinishTag s); [cbn [te_tag]; congruence|].
  destruct (isTextAndSelfCloseTag s); [cbn [te_tag]; congruence|].
  destruct (isTextAndFinishTag s); [cbn [te_tag]; congruence|].
  destruct (isTextAndStartTag s) as [m|] eqn:E5;
    [|cbn [te_tag]; congruence].
  intros _. cbn [te_text te_tag te_tagName].
  destruct (text_start_tag _ E5) as (rest & Hu & Hs & Hg).
  now apply (@findNextElement_at_tag _ (grp 2 m) rest).
Qed.

Lemma classifier_tag_is_found_witness :
  exists el ctx2,
    findNextElement
      {| source := skipn (length (lit "one "))
                     (lit "one <b>two</b>") |}
    = Ok (Some el, ctx2) /\
    tag el = lit "<b>" /\ tagName el = lit "b".
Proof.
  apply (@classifier_tag_is_found
           {| source := lit "  one <b>two</b>" |}
           {| te_text := lit "one "; te_tag := lit "<b>";
              te_tagName := lit "b"; te_selftag := [] |}
           {| source := lit "one <b>two</b>" |}).
  - vm_compute. reflexivity.
  - discriminate.
Defined.

(* ================================================================= *)
(** ** The attributes [getProps] returns *)

(** What the attribute pattern matches: a run of key characters, [=], a
    double quote, and more. *)
Lemma attribute_match_shape t ps :
  exec_at re_attribute t = Some ps ->
  exists k w, List.concat ps = k ++ 61%N :: 34%N :: w /\
              forallb key_char k = true.
Proof.
  unfold re_attribute. simpl.
  destruct t as [|x t]; [discriminate|].
  destruct (key_char x) eqn:Kx; [|discriminate].
  destruct (star_greedy key_char _ t) as [[p ps']|] eqn:E; [|discriminate].
  intros [= <-].
  apply star_greedy_sound in E as (rest & -> & Hp & Hk).
  destruct rest as [|e rest]; [discriminate|].
  destruct (equals e) eqn:He; [|discriminate].
  unfold equals, chr in He; simpl in He. apply N.eqb_eq in He; subst e.
  destruct rest as [|q rest]; [discriminate|].
  destruct (dquote q) eqn:Hq; [|discriminate].
  unfold dquote in Hq. apply N.eqb_eq in Hq; subst q.
  destruct rest as [|v rest]; [discriminate|].
  destruct (not_dquote v); [|discriminate].
  destruct (star_lazy not_dquote _ rest) as [[pv psv]|]; [|discriminate].
  simpl in Hk. injection Hk as <-.
  exists (x :: p). eexists. split; [simpl; reflexivity|].
  simpl. now rewrite Kx, Hp.
Qed.

Lemma split_head c s :
  exists ps, split c s
             = take_while (fun x => negb (N.eqb x c)) s :: ps.
Proof.
  induction s as [|x s (ps & IH)]; simpl; [now exists []|].
  unfold char_eqb. destruct (N.eqb x c); simpl; [now eexists|].
  rewrite IH. now eexists.
Qed.

Lemma name_before_equals k w :
  forallb key_char k = true ->
  let name := take_while (fun x => negb (N.eqb x 61)) (k ++ 61%N :: w) in
  forallb key_char name = true /\ ~ In 61%N name.
Proof.
  induction k as [|x k IH]; simpl; intros H; [tauto|].
  apply andb_prop in H as [Hx H]. specialize (IH H). cbv zeta in IH.
  destruct (N.eqb x 61) eqn:E; simpl; [tauto|].
  rewrite Hx. destruct IH as [IH1 IH2]. split; [assumption|].
  intros [->|Hin]; [discriminate | tauto].
Qed.

(** X10.  [getProps] never throws, whatever the tag: the value it passes
    to [replace] is never [undefined].  It returns attribute nodes only,
    and the name of each holds no [=], no quote of either kind and no
    space. *)
Theorem getProps_attributes tg :
  exists ps,
    getProps tg = Ok ps /\
    forall p, In p ps ->
      exists name value,
        p = AttributeNode name value /\
        forallb key_char name = true /\ ~ In 61%N name.
Proof.
  unfold getProps, match_all.
  pose proof (@match_rounds_whole re_attribute (S (length tg)) tg) as H.
  destruct (match_rounds (S (length tg)) re_attribute tg) as [|w ws].
  { exists []. split; [reflexivity | intros p []]. }
  revert H. generalize (w :: ws) as ms. clear.
  induction ms as [|a ms IH]; intros H; simpl.
  { exists []. split; [reflexivity | intros p []]. }
  destruct (H a (or_introl eq_refl)) as (t & ps & Hex & ->).
  destruct (attribute_match_shape _ Hex) as (k & w & Hc & Hk).
  destruct (split_two 61%N (List.concat ps)) as (key & v & l & Hsp).
  { rewrite Hc. apply in_or_app. right. now left. }
  destruct (split_head 61%N (List.concat ps)) as (ps' & Hh).
  rewrite Hsp in Hh. injection Hh as Hkey _. rewrite Hc in Hkey.
  destruct (@name_before_equals k (34%N :: w) Hk) as [Hn1 Hn2].
  unfold jsstring, char in *. rewrite <- Hkey in *.
  unfold attribute_of at 1. rewrite Hsp.
  destruct IH as (bs & -> & Hbs); [intros; apply H; now right|].
  eexists. split; [reflexivity|].
  intros p [<-|Hin]; [|now apply Hbs].
  now eexists _, _.
Qed.

(** The attribute pattern matches nowhere in a text without a double
    quote. *)
Lemma exec_attribute_needs_dquote s :
  ~ In 34%N s -> exec re_attribute s = None.
Proof.
  intros Hn. destruct (exec re_attribute s) as [m|] eqn:E; [|reflexivity].
  exfalso. apply Hn. unfold exec in E.
  destruct (exec_from_bounds _ _ _ E) as (front & rest & -> & _).
  destruct (exec_from_whole _ _ _ E) as (t & ps & Hex & ->).
  destruct (attribute_match_shape _ Hex) as (k & w & -> & _).
  apply in_or_app. right. apply in_or_app. left.
  apply in_or_app. right. right. now left.
Qed.

Lemma getProps_no_match tg :
  exec re_attribute tg = None -> getProps tg = Ok [].
Proof.
  intros E. unfold getProps, match_all. cbn [match_rounds]. now rewrite E.
Qed.

(** X11.  A tag that holds no double quote has no attribute for
    [getProps]: values in single quotes and values without quotes are
    dropped, silently. *)
Theorem getProps_without_double_quote tg :
  ~ In 34%N tg -> getProps tg = Ok [].
Proof.
  intros Hn. now apply getProps_no_match, exec_attribute_needs_dquote.
Qed.

Lemma getProps_without_double_quote_witness :
  getProps (lit "<div data-x='y' hidden id=main>") = Ok [].
Proof.
  apply getProps_without_double_quote. vm_compute.
  intuition discriminate.
Defined.

(* ================================================================= *)
(** ** A tag with one well-formed attribute *)

Lemma app_eq_length {A} (p p' r r' : list A) :
  p ++ r = p' ++ r' -> length p = length p' -> p = p' /\ r = r'.
Proof.
  revert p'; induction p as [|x p IH]; intros [|y p'] H L;
    simpl in *; try discriminate; [tauto|].
  injection H as -> H. destruct (IH p' H) as [-> ->]; [lia | tauto].
Qed.

(** A greedy star stops after [p] when the continuation accepts what
    follows [p] and refuses what follows every longer run. *)
Lemma star_greedy_unique c (k : cont) p rest ps :
  forallb c p = true -> k rest = Some ps ->
  (forall q rest', p ++ rest = q ++ rest' -> forallb c q = true ->
                   length p < length q -> k rest' = None) ->
  star_greedy c k (p ++ rest) = Some (p, ps).
Proof.
  intros Hp Hk Hlong.
  destruct (star_greedy c k (p ++ rest)) as [[p' ps']|] eqn:E.
  - destruct (@star_greedy_sound _ _ _ _ _ E) as (r' & Hs & Hp' & Hk').
    destruct (lt_eq_lt_dec (length p') (length p)) as [[L|L]|L].
    + rewrite (@star_greedy_maximal _ _ _ _ _ E p rest eq_refl Hp L) in Hk.
      discriminate.
    + destruct (app_eq_length _ _ _ _ Hs (eq_sym L)) as [Ep Er].
      subst p' r'. rewrite Hk in Hk'. now injection Hk' as <-.
    + rewrite (Hlong p' r' Hs Hp' L) in Hk'. discriminate.
  - exfalso. apply (@star_greedy_complete c k p rest Hp); congruence.
Qed.

(** A lazy star stops after [p] when the continuation accepts what follows
    [p] and refuses every earlier position. *)
Lemma star_lazy_unique c (k : cont) p rest ps :
  forallb c p = true -> k rest = Some ps ->
  (forall n, n < length p -> k (skipn n (p ++ rest)) = None) ->
  star_lazy c k (p ++ rest) = Some (p, ps).
Proof.
  induction p as [|x p IH]; intros Hp Hk Hn.
  - simpl. destruct rest; simpl; now rewrite Hk.
  - simpl in Hp. apply andb_prop in Hp as [Hx Hp].
    pose proof (Hn 0 ltac:(simpl; lia)) as H0. simpl in H0.
    cbn [app star_lazy]. rewrite H0, Hx, IH; auto.
    intros n L. apply (Hn (S n)). simpl. lia.
Qed.

Lemma skipn_inside {A} (p rest : list A) n :
  n < length p ->
  exists y t, skipn n (p ++ rest) = y :: t /\ In y p.
Proof.
  revert n; induction p as [|x p IH]; intros n L; simpl in L; [lia|].
  destruct n as [|n]; simpl.
  - exists x, (p ++ rest). split; [reflexivity | now left].
  - destruct (IH n ltac:(lia)) as (y & t & -> & Hy).
    exists y, t. split; [reflexivity | now right].
Qed.

(** The attribute pattern at the head of a well-formed attribute matches
    the attribute and nothing more. *)
Lemma exec_at_attribute key v post :
  key <> [] -> forallb key_char key = true ->
  v <> [] -> ~ In 34%N v ->
  exec_at re_attribute (key ++ 61%N :: 34%N :: v ++ 34%N :: post)
  = Some [key; [61%N]; [34%N]; v; [34%N]].
Proof.
  intros Hk Hkc Hv Hv34.
  destruct key as [|k0 key]; [congruence|].
  destruct v as [|v0 v]; [congruence|].
  simpl in Hkc. apply andb_prop in Hkc as [Hk0 Hkc].
  assert (Hv0 : not_dquote v0 = true).
  { unfold not_dquote. destruct (N.eqb v0 34) eqn:E; [|reflexivity].
    apply N.eqb_eq in E. subst. exfalso. apply Hv34. now left. }
  assert (Hvd : forallb not_dquote v = true).
  { apply forallb_forall. intros y Hy. unfold not_dquote.
    destruct (N.eqb y 34) eqn:E; [|reflexivity].
    apply N.eqb_eq in E. subst. exfalso. apply Hv34. now right. }
  unfold re_attribute. cbn [exec_at app]. rewrite Hk0. unfold star.
  rewrite (@star_greedy_unique key_char _ key
             (61%N :: 34%N :: (v0 :: v) ++ 34%N :: post)
             [[61%N]; [34%N]; v0 :: v; [34%N]]); auto.
  - cbn [app]. change (equals 61%N) with true.
    change (dquote 34%N) with true. cbv iota. rewrite Hv0.
    rewrite (@star_lazy_unique not_dquote _ v (34%N :: post) [[34%N]]);
      auto.
    intros n L. destruct (skipn_inside v (34%N :: post) L)
      as (y & t & Hsk & Hy).
    unfold jsstring, char in *. rewrite Hsk. unfold dquote. destruct (N.eqb y 34) eqn:E; [|reflexivity].
    apply N.eqb_eq in E. subst. exfalso. apply Hv34. now right.
  - intros q rest' Hs Hq L.
    apply app_eq_app in Hs as (l & [[-> Hr] | [-> Hr]]).
    + rewrite length_app in L. lia.
    + destruct l as [|e l]; [rewrite length_app in L; simpl in L; lia|].
      injection Hr as <- Hr.
      destruct l as [|d l].
      * simpl in Hr. subst rest'. reflexivity.
      * injection Hr as <- _. rewrite forallb_app in Hq.
        apply andb_prop in Hq as [_ Hq]. simpl in Hq.
        discriminate Hq.
Qed.

(** The attribute pattern does not match at a position from which there
    is no [=] before a character that a key cannot hold. *)
Lemma exec_at_attribute_none u0 sp t :
  ~ In 61%N u0 -> key_char sp = false ->
  exec_at re_attribute (u0 ++ sp :: t) = None.
Proof.
  intros Hu Hsp.
  destruct (exec_at re_attribute (u0 ++ sp :: t)) as [ps|] eqn:E;
    [|reflexivity].
  exfalso. destruct (attribute_match_shape _ E) as (k & w & Hc & Hk).
  destruct (exec_at_prefix _ _ E) as (rest & Hs). rewrite Hc in Hs.
  rewrite <- app_assoc in Hs.
  apply app_eq_app in Hs as (l & [[-> Hr] | [-> Hr]]).
  - destruct l as [|e l].
    + simpl in Hr. injection Hr as <- _. discriminate Hsp.
    + injection Hr as <- _. apply Hu. apply in_or_app. right. now left.
  - rewrite forallb_app in Hk. apply andb_prop in Hk as [_ Hk].
    destruct l as [|e l]; simpl in Hr.
    + injection Hr as -> _. discriminate Hsp.
    + injection Hr as <- _. simpl in Hk. rewrite Hsp in Hk.
      discriminate Hk.
Qed.

(** The search skips a prefix in which the pattern matches nowhere. *)
Lemma exec_from_skip r pre t :
  (forall w u, pre = w ++ u -> u <> [] -> exec_at r (u ++ t) = None) ->
  forall i, exec_from r i (pre ++ t) = exec_from r (i + length pre) t.
Proof.
  induction pre as [|x pre IH]; intros H i.
  - simpl. now rewrite Nat.add_0_r.
  - pose proof (H [] (x :: pre) eq_refl ltac:(discriminate)) as H0.
    cbn [app exec_from] in *. rewrite H0.
    rewrite IH.
    + f_equal. simpl. lia.
    + intros w u -> Hu. apply (H (x :: w) u); auto.
Qed.

Lemma last_suffix (w u : jsstring) d :
  u <> [] -> last (w ++ u) d = last u d.
Proof.
  intros Hu. induction w as [|x w IH]; [reflexivity|].
  simpl. rewrite IH. destruct (w ++ u) eqn:E; [|reflexivity].
  apply app_eq_nil in E as [_ E]. congruence.
Qed.

Lemma split_without c s : ~ In c s -> split c s = [s].
Proof.
  induction s as [|x s IH]; simpl; intros H; [reflexivity|].
  unfold char_eqb. destruct (N.eqb x c) eqn:E.
  - apply N.eqb_eq in E. tauto.
  - rewrite IH by tauto. reflexivity.
Qed.

Lemma split_at c a b :
  ~ In c a -> split c (a ++ c :: b) = a :: split c b.
Proof.
  induction a as [|x a IH]; simpl; intros H.
  - unfold char_eqb. now rewrite N.eqb_refl.
  - unfold char_eqb. destruct (N.eqb x c) eqn:E.
    + apply N.eqb_eq in E. tauto.
    + rewrite IH by tauto. reflexivity.
Qed.

(** The global [replace] of [getProps] strips the quotes of a
    double-quoted value that holds no line terminator. *)
Lemma replace_quoted v :
  v <> [] -> forallb dot v = true ->
  replace_all_group1 re_quoted (34%N :: v ++ [34%N]) = v.
Proof.
  intros Hv Hd. destruct v as [|v0 v]; [congruence|].
  simpl in Hd. apply andb_prop in Hd as [Hv0 Hd].
  unfold replace_all_group1.
  assert (E : exec_at re_quoted (34%N :: (v0 :: v) ++ [34%N])
              = Some [[34%N]; []; v0 :: v; []; [34%N]]).
  { unfold re_quoted. cbn [exec_at app].
    change (any_quote 34%N) with true. cbv iota. rewrite Hv0.
    unfold star.
    rewrite (@star_greedy_unique dot _ v [34%N] [[]; [34%N]]); auto.
    intros q rest' Hs Hq L.
    apply app_eq_app in Hs as (l & [[-> Hr] | [-> Hr]]).
    - rewrite length_app in L. lia.
    - destruct l as [|e l]; [rewrite length_app in L; simpl in L; lia|].
      injection Hr as <- Hr. symmetry in Hr.
      apply app_eq_nil in Hr as [_ ->]. reflexivity. }
  remember (length (34%N :: (v0 :: v) ++ [34%N])) as n eqn:En.
  cbn [replace_rounds]. unfold exec. cbn [exec_from].
  unfold jsstring, char in *. rewrite E.
  unfold mk_match, after_match.
  cbn [group groups whole index nth_error captures re_quoted
       List.concat app firstn Nat.add].
  clear En. rewrite skipn_all. cbn [length replace_rounds].
  unfold exec. cbn [exec_from exec_at]. now rewrite app_nil_r.
Qed.

Lemma exec_from_here r s i ps :
  exec_at r s = Some ps -> exec_from r i s = Some (mk_match r i ps).
Proof. intros H. destruct s; simpl; now rewrite H. Qed.

Lemma match_rounds_none r n s :
  exec r s = None -> match_rounds n r s = [].
Proof. intros H. destruct n; simpl; [reflexivity | now rewrite H]. Qed.

(** X12.  On a tag that holds one well-formed attribute, [getProps]
    returns that attribute, name and value as written: the key is a
    non-empty run without [=], quote or space, the value a non-empty text
    in double quotes without [=], double quote or line terminator; what
    precedes the key holds no [=] and does not end with a key character
    (a blank, as a rule), and what follows the closing quote holds no
    double quote. *)
Theorem getProps_single_attribute pre key v post :
  ~ In 61%N pre -> key_char (last pre 32%N) = false ->
  key <> [] -> forallb key_char key = true -> ~ In 61%N key ->
  v <> [] -> ~ In 34%N v -> ~ In 61%N v -> forallb dot v = true ->
  ~ In 34%N post ->
  getProps (pre ++ key ++ 61%N :: 34%N :: v ++ 34%N :: post)
  = Ok [AttributeNode key v].
Proof.
  intros Hpre Hlast Hk Hkc Hk61 Hv Hv34 Hv61 Hvd Hpost.
  set (T := key ++ 61%N :: 34%N :: v ++ 34%N :: post).
  assert (Hex : exec re_attribute (pre ++ T)
                = Some (mk_match re_attribute (length pre)
                          [key; [61%N]; [34%N]; v; [34%N]])).
  { unfold exec. rewrite exec_from_skip.
    - apply exec_from_here. now apply exec_at_attribute.
    - intros w u -> Hu.
      destruct (exists_last Hu) as (u0 & sp & ->).
      rewrite <- app_assoc. cbn [app].
      apply exec_at_attribute_none.
      + intros Hin. apply Hpre. apply in_or_app. right.
        apply in_or_app. now left.
      + rewrite last_suffix, last_last in Hlast; [assumption|].
        destruct u0; discriminate. }
  assert (Hwhole : List.concat [key; [61%N]; [34%N]; v; [34%N]]
                   = key ++ 61%N :: 34%N :: v ++ [34%N]).
  { reflexivity. }
  assert (Hafter : after_match
                     (mk_match re_attribute (length pre)
                        [key; [61%N]; [34%N]; v; [34%N]]) (pre ++ T)
                   = Some post).
  { unfold after_match, mk_match. cbn [whole index]. rewrite Hwhole.
    destruct key as [|k0 key]; [congruence|]. cbn [app].
    f_equal. rewrite skipn_app, skipn_all2 by lia.
    replace (length pre + _ - length pre)
      with (length (k0 :: key ++ 61%N :: 34%N :: v ++ [34%N])) by lia.
    unfold T. cbn [app].
    replace (k0 :: key ++ 61%N :: 34%N :: v ++ 34%N :: post)
      with ((k0 :: key ++ 61%N :: 34%N :: v ++ [34%N]) ++ post).
    - now rewrite skipn_app, skipn_all, Nat.sub_diag.
    - cbn [app]. rewrite <- app_assoc. cbn [app].
      now rewrite <- app_assoc. }
  unfold getProps, match_all. cbn [match_rounds].
  fold T. unfold jsstring, char in *. rewrite Hex, Hafter.
  rewrite match_rounds_none by now apply exec_attribute_needs_dquote.
  unfold mk_match. cbn [whole List.concat app].
  cbn [map_result]. unfold attribute_of.
  rewrite split_at by assumption.
  rewrite split_without.
  - now rewrite replace_quoted.
  - intros [E|E]; [discriminate|].
    apply in_app_or in E as [E|[E|[]]]; [tauto | discriminate].
Qed.

(** The tag of a [div] with the attribute [class], of value
    [btn primary] in double quotes, followed by the bare word [hidden]. *)
Lemma getProps_single_attribute_witness :
  getProps (lit "<div " ++ lit "class" ++ 61%N :: 34%N
            :: lit "btn primary" ++ 34%N :: lit " hidden>")
  = Ok [AttributeNode (lit "class") (lit "btn primary")].
Proof.
  apply (@getProps_single_attribute (lit "<div ") (lit "class")
           (lit "btn primary") (lit " hidden>"));
    try (vm_compute; intuition discriminate).
Defined.

(* ================================================================= *)
(** ** Documents of the simplest shapes *)

Ltac alnum_differs H :=
  match goal with
  | |- N.eqb ?c ?k = false =>
      let E := fresh "E" in
      destruct (N.eqb c k) eqn:E; [|reflexivity];
      apply N.eqb_eq in E; subst; discriminate H
  end.

Lemma alnum_run_without (k : N) name :
  alnum_i k = false -> forallb alnum_i name = true -> ~ In k name.
Proof.
  intros Hk Hn Hin. rewrite forallb_forall in Hn.
  specialize (Hn _ Hin). congruence.
Qed.

Lemma alnum_run_dot name :
  forallb alnum_i name = true -> forallb dot name = true.
Proof.
  rewrite !forallb_forall. intros H x Hx. now apply alnum_dot, H.
Qed.

(** [findNextElement] on a source that begins with an open tag, with
    every field of the element it returns. *)
Lemma findNextElement_at_tag_full s tg rest :
  starts_with_lt_alnum s = true ->
  gt_before_line_end s = true ->
  upto_first 62%N s = Some (tg, rest) ->
  exists ps,
    getProps tg = Ok ps /\
    findNextElement {| source := s |}
    = Ok (Some (ElementNode tg (getTagName tg) (test re_self_closing tg)
                  ps []),
          {| source := drop_spaces rest |}).
Proof.
  intros Hs Hg Hu. rewrite findNextElement_eq. cbn [source]. cbv zeta.
  rewrite (drop_spaces_at_tag _ Hs).
  destruct (exec_anchored re_open_start s) eqn:E1;
    [|apply open_start_none in E1; congruence].
  destruct (exec_anchored re_open_tag s) as [m2|] eqn:E2;
    [|apply (open_tag_none _ Hs) in E2; congruence].
  destruct (open_tag_match _ Hs E2) as (rest' & Hu' & _ & _).
  rewrite Hu in Hu'. injection Hu' as <- <-.
  destruct (getProps_returns tg) as (ps & Hps). exists ps.
  split; [assumption|]. rewrite Hps.
  apply upto_first_split in Hu as [Hu _].
  rewrite Hu at 1. now rewrite skipn_app, skipn_all, Nat.sub_diag.
Qed.

(** X13.  A self-closing tag without attributes, [<name />] with a name
    of letters and digits, parses to an element of that name, marked
    self-closing, without attributes and without children; the cursor is
    left after the tag and the blanks that follow it, and nothing of what
    follows is read. *)
Theorem parseNode_self_closing_tag fuel name post :
  name <> [] -> forallb alnum_i name = true ->
  parseNode (S fuel)
    {| source := lit "<" ++ name ++ lit " />" ++ post |}
  = Ok (Some (ElementNode (lit "<" ++ name ++ lit " />") name true [] []),
        {| source := drop_spaces post |}).
Proof.
  intros Hne Hn. destruct name as [|x name]; [congruence|].
  simpl in Hn. apply andb_prop in Hn as [Hx Hn].
  destruct (alnum_dot _ Hx) as [Dx Gx].
  pose proof (alnum_run_dot _ Hn) as Hnd.
  change (lit "<") with [60%N]. change (lit " />") with [32%N; 47%N; 62%N].
  cbn [app]. unfold jsstring, char in *.
  set (tg := 60%N :: x :: name ++ [32%N; 47%N; 62%N]).
  assert (Htg : tg = (60%N :: x :: name ++ [32%N; 47%N]) ++ [62%N]).
  { unfold tg. cbn [app]. rewrite <- app_assoc. reflexivity. }
  assert (Hsrc : 60%N :: x :: name ++ 32%N :: 47%N :: 62%N :: post
                 = (60%N :: x :: name ++ [32%N; 47%N]) ++ 62%N :: post).
  { cbn [app]. rewrite <- app_assoc. reflexivity. }
  assert (Hn62 : ~ In 62%N (60%N :: x :: name ++ [32%N; 47%N])).
  { intros [E|[E|E]]; [discriminate | subst; discriminate Gx|].
    apply in_app_or in E as [E|[E|[E|[]]]]; try discriminate.
    revert E. now apply alnum_run_without. }
  assert (Hdot : forallb dot (60%N :: x :: name ++ [32%N; 47%N]) = true).
  { cbn [forallb]. rewrite Dx, forallb_app, Hnd. reflexivity. }
  destruct (@findNextElement_at_tag_full
              (60%N :: x :: name ++ 32%N :: 47%N :: 62%N :: post) tg post)
    as (ps & Hps & Hf).
  - simpl. now rewrite Hx.
  - rewrite Hsrc. now apply gt_before_line_end_app.
  - rewrite Hsrc, Htg. now apply upto_first_app.
  - cbn [parseNode]. unfold parseNodeBody, bind at 1.
    unfold jsstring, char in *. rewrite Hf.
    assert (Hsc : test re_self_closing tg = true).
    { apply test_self_closing. exists (60%N :: x :: name).
      unfold tg. reflexivity. }
    assert (Hname : getTagName tg = x :: name).
    { rewrite Htg. cbn [app].
      rewrite getTagName_open_tag.
      - rewrite <- app_assoc. cbn [app].
        rewrite take_while_app; auto.
      - assumption.
      - rewrite forallb_app, Hnd. reflexivity. }
    assert (Hprops : ps = []).
    { rewrite getProps_no_match in Hps;
        [congruence | apply exec_attribute_needs_dquote].
      unfold tg. intros [E|[E|E]]; [discriminate | |].
      - subst x. discriminate Hx.
      - apply in_app_or in E as [E|[E|[E|[E|[]]]]]; try discriminate.
        revert E. now apply alnum_run_without. }
    rewrite Hsc, Hname, Hprops. reflexivity.
Qed.

Lemma parseNode_self_closing_tag_witness :
  parseNode 1 {| source := lit "<" ++ lit "br" ++ lit " />" ++ lit " x" |}
  = Ok (Some (ElementNode (lit "<" ++ lit "br" ++ lit " />") (lit "br")
                true [] []),
        {| source := drop_spaces (lit " x") |}).
Proof.
  apply (@parseNode_self_closing_tag 0 (lit "br") (lit " x")).
  - discriminate.
  - reflexivity.
Defined.

Lemma alnum_name_char x : alnum_i x = true -> name_char x = true.
Proof.
  intros H. unfold name_char, one_of. cbn [existsb].
  assert (E1 : N.eqb x 9 = false) by alnum_differs H.
  assert (E2 : N.eqb x 13 = false) by alnum_differs H.
  assert (E3 : N.eqb x 10 = false) by alnum_differs H.
  assert (E4 : N.eqb x 12 = false) by alnum_differs H.
  assert (E5 : N.eqb x 32 = false) by alnum_differs H.
  assert (E6 : N.eqb x 47 = false) by alnum_differs H.
  assert (E7 : N.eqb x 62 = false) by alnum_differs H.
  now rewrite E1, E2, E3, E4, E5, E6, E7.
Qed.

Lemma not_trim_space_not_space x :
  is_trim_space x = false -> space x = false.
Proof.
  intros H. unfold space, one_of. cbn [existsb].
  assert (E1 : N.eqb x 9 = false) by alnum_differs H.
  assert (E2 : N.eqb x 13 = false) by alnum_differs H.
  assert (E3 : N.eqb x 10 = false) by alnum_differs H.
  assert (E4 : N.eqb x 12 = false) by alnum_differs H.
  assert (E5 : N.eqb x 32 = false) by alnum_differs H.
  now rewrite E1, E2, E3, E4, E5.
Qed.

(** [trim] leaves a text alone when neither its first nor its last
    character is a blank of [trim]. *)
Lemma trim_id t :
  is_trim_space (hd 32%N t) = false ->
  is_trim_space (last t 32%N) = false ->
  trim t = t.
Proof.
  intros Hh Hl. destruct t as [|a t]; [reflexivity|].
  unfold trim. cbn [hd] in Hh. cbn [trimStart]. rewrite Hh.
  unfold trimEnd.
  destruct (@exists_last _ (a :: t) ltac:(discriminate)) as (u & z & E).
  rewrite E in *. rewrite last_last in Hl.
  rewrite rev_app_distr. cbn [rev app trimStart]. rewrite Hl.
  change (z :: rev u) with (rev [z] ++ rev u).
  now rewrite <- rev_app_distr, rev_involutive.
Qed.

(** Matching succeeds atom by atom. *)
Lemma exec_at_paren r s :
  exec_at r s <> None ->
  exec_at (LParen :: r) s <> None /\ exec_at (RParen :: r) s <> None.
Proof.
  intros H. cbn [exec_at]. destruct (exec_at r s); [|congruence].
  split; discriminate.
Qed.

Lemma exec_at_char c r x s :
  c x = true -> exec_at r s <> None -> exec_at (Char c :: r) (x :: s) <> None.
Proof.
  intros Hx H. cbn [exec_at]. rewrite Hx.
  destruct (exec_at r s); [discriminate | congruence].
Qed.

Lemma exec_at_star_lazy c r p rest :
  forallb c p = true -> exec_at r rest <> None ->
  exec_at (Star Lazy c :: r) (p ++ rest) <> None.
Proof.
  intros Hp H. cbn [exec_at]. unfold star.
  destruct (exec_at r rest) as [ps|] eqn:E; [|congruence].
  pose proof (@star_lazy_complete c (exec_at r) p rest ps Hp E) as Hc.
  destruct (star_lazy c (exec_at r) (p ++ rest)) as [[? ?]|];
    [discriminate | congruence].
Qed.

Lemma exec_at_plus_lazy c r x p rest :
  c x = true -> forallb c p = true -> exec_at r rest <> None ->
  exec_at (Plus Lazy c :: r) (x :: p ++ rest) <> None.
Proof.
  intros Hx Hp H. cbn [exec_at]. rewrite Hx. unfold star.
  destruct (exec_at r rest) as [ps|] eqn:E; [|congruence].
  pose proof (@star_lazy_complete c (exec_at r) p rest ps Hp E) as Hc.
  destruct (star_lazy c (exec_at r) (p ++ rest)) as [[? ?]|];
    [discriminate | congruence].
Qed.

(** The text-then-end-tag pattern matches a text without [<] followed by
    a close tag. *)
Lemma text_finish_matches t x name post :
  t <> [] -> forallb not_lt t = true ->
  alnum_i x = true -> forallb dot name = true ->
  isTextAndFinishTag
    (t ++ 60%N :: 47%N :: x :: name ++ 62%N :: post) <> None.
Proof.
  intros Ht Hnl Hx Hn. unfold isTextAndFinishTag, exec_anchored.
  destruct t as [|t0 t]; [congruence|].
  simpl in Hnl. apply andb_prop in Hnl as [Ht0 Hnl].
  assert (H : exec_at re_text_finish
                ((t0 :: t) ++ 60%N :: 47%N :: x :: name ++ 62%N :: post)
              <> None).
  { unfold re_text_finish. cbn [app].
    apply exec_at_paren, exec_at_plus_lazy; auto.
    apply exec_at_paren, exec_at_paren.
    apply exec_at_char; [reflexivity|].
    apply exec_at_char; [reflexivity|].
    apply exec_at_char; [assumption|].
    apply exec_at_star_lazy; [assumption|].
    apply exec_at_char; [reflexivity|].
    apply exec_at_paren. discriminate. }
  destruct (exec_at re_text_finish _); [discriminate | congruence].
Qed.

(** One round of the loop on a text followed by the close tag of the
    element: the text becomes the last child and the loop ends. *)
Lemma whileLoop_text_then_close rec tn iters counter cs s r post :
  drop_spaces s = s ->
  getNextTextAndElement {| source := s |} = Ok (r, {| source := s |}) ->
  te_text r <> [] -> te_tag r = [] ->
  isNextCloseTag tn {| source := skipn (length (te_text r)) s |}
  = Ok (true, {| source := post |}) ->
  whileLoop rec tn (S iters) counter cs {| source := s |}
  = Ok (cs ++ [TextNode (te_text r)], {| source := post |}).
Proof.
  intros Hd Hr Ht Hg Hc.
  cbn [whileLoop]. unfold bind at 1. rewrite removeHeadSpaces_eq.
  cbn [source]. rewrite Hd.
  unfold bind at 1. rewrite Hr.
  unfold bind at 1.
  assert (Htr : truthy (te_text r) = true)
    by (destruct (te_text r); [congruence | reflexivity]).
  rewrite Htr. unfold bind at 1, cutHeadStr at 1, slice, ret at 1.
  cbn [source].
  unfold bind at 1. rewrite Hg. cbn [truthy]. unfold ret at 1.
  unfold bind at 1. rewrite Hc. reflexivity.
Qed.

(** X14.  The simplest element with a text, [<name>text</name>]: for a
    name of letters and digits and a text without [<] that neither begins
    nor ends with a blank, [parseNode] returns the element of that name,
    not self-closing, without attributes, whose only child is the text
    node of that text; the cursor is left right after the close tag, the
    blanks that follow it included. *)
Theorem parseNode_element_with_text fuel name t post :
  name <> [] -> forallb alnum_i name = true ->
  t <> [] -> ~ In 60%N t ->
  is_trim_space (hd 32%N t) = false ->
  is_trim_space (last t 32%N) = false ->
  parseNode (S fuel)
    {| source := lit "<" ++ name ++ lit ">" ++ t
                 ++ lit "</" ++ name ++ lit ">" ++ post |}
  = Ok (Some (ElementNode (lit "<" ++ name ++ lit ">") name false []
                [TextNode t]),
        {| source := post |}).
Proof.
  intros Hne Hn Ht Ht60 Hhd Hlast.
  destruct name as [|x nm]; [congruence|].
  simpl in Hn. apply andb_prop in Hn as [Hx Hn].
  destruct (alnum_dot _ Hx) as [Dx Gx].
  pose proof (alnum_run_dot _ Hn) as Hnd.
  assert (Hn62 : ~ In 62%N nm) by now apply alnum_run_without.
  assert (Hn47 : ~ In 47%N nm) by now apply alnum_run_without.
  assert (Hn34 : ~ In 34%N nm) by now apply alnum_run_without.
  assert (Hnl : forallb not_lt t = true).
  { apply forallb_forall. intros y Hy. unfold not_lt.
    destruct (N.eqb y 60) eqn:E; [|reflexivity].
    apply N.eqb_eq in E. subst. tauto. }
  assert (Hd1 : forallb dot (60%N :: x :: nm) = true).
  { change (dot 60%N && (dot x && forallb dot nm) = true).
    rewrite Dx. exact Hnd. }
  assert (Hd2 : forallb dot (60%N :: 47%N :: x :: nm) = true).
  { change (dot 60%N && (dot 47%N && (dot x && forallb dot nm)) = true).
    rewrite Dx. exact Hnd. }
  change (lit "<") with [60%N]. change (lit ">") with [62%N].
  change (lit "</") with [60%N; 47%N]. cbn [app].
  unfold jsstring, char in *.
  set (C := 60%N :: 47%N :: x :: nm ++ 62%N :: post).
  set (R := t ++ C).
  set (tg := 60%N :: x :: nm ++ [62%N]).
  (* the open tag *)
  destruct (@findNextElement_at_tag_full (60%N :: x :: nm ++ 62%N :: R)
              tg R) as (ps & Hps & Hf).
  { simpl. now rewrite Hx. }
  { change (60%N :: x :: nm ++ 62%N :: R)
      with ((60%N :: x :: nm) ++ 62%N :: R).
    apply gt_before_line_end_app. exact Hd1. }
  { change (60%N :: x :: nm ++ 62%N :: R)
      with ((60%N :: x :: nm) ++ 62%N :: R).
    apply upto_first_app.
    intros [E|[E|E]]; [discriminate | subst; discriminate Gx | tauto]. }
  assert (Hname : getTagName tg = x :: nm).
  { unfold tg. rewrite getTagName_open_tag by assumption.
    now rewrite take_while_app. }
  assert (Hsc : test re_self_closing tg = false).
  { destruct (test re_self_closing tg) eqn:E; [|reflexivity].
    apply test_self_closing in E as (front & E). exfalso.
    change (lit " />") with ([32%N; 47%N] ++ [62%N]) in E.
    unfold tg in E.
    change (60%N :: x :: nm ++ [62%N])
      with ((60%N :: x :: nm) ++ [62%N]) in E.
    rewrite app_assoc in E. apply app_inj_tail in E as [E _].
    assert (H47 : In 47%N (60%N :: x :: nm)).
    { rewrite E. apply in_or_app. right. right. now left. }
    destruct H47 as [H47|[H47|H47]]; [discriminate | | tauto].
    subst x. discriminate Hx. }
  assert (Hprops : ps = []).
  { rewrite getProps_no_match in Hps;
        [congruence | apply exec_attribute_needs_dquote].
    unfold tg. intros [E|[E|E]]; [discriminate | |].
    - subst x. discriminate Hx.
    - apply in_app_or in E as [E|[E|[]]]; [tauto | discriminate]. }
  (* the text *)
  destruct t as [|t0 t']; [congruence|].
  cbn [hd] in Hhd.
  assert (HdR : drop_spaces R = R).
  { unfold R. cbn [app drop_spaces].
    now rewrite (not_trim_space_not_space _ Hhd). }
  assert (Hlead : take_while not_lt R = t0 :: t').
  { unfold R, C. now apply take_while_app. }
  assert (Hcls : exists r,
             getNextTextAndElement {| source := R |}
             = Ok (r, {| source := R |}) /\
             te_text r = t0 :: t' /\ te_tag r = []).
  { rewrite getNextTextAndElement_eq. cbn [source]. cbv zeta.
    rewrite HdR.
    destruct (@tag_patterns_need_lt R) as [-> ->];
      [rewrite Hlead; discriminate|].
    destruct (isTextAndSelfCloseTag R) as [m3|] eqn:E3.
    { exfalso.
      destruct (text_self_close_capture _ E3) as (H1 & _ & y & r3 & Hs & Hy).
      rewrite H1, Hlead in Hs. unfold R, C in Hs.
      apply app_inv_head in Hs. injection Hs as <- _. discriminate Hy. }
    destruct (isTextAndFinishTag R) as [m4|] eqn:E4.
    - destruct (text_finish_capture _ E4) as (H1 & _).
      eexists. split; [reflexivity|]. cbn [te_text te_tag].
      rewrite H1, Hlead. split; [|reflexivity].
      now apply trim_id.
    - exfalso. revert E4. unfold R, C.
      now apply text_finish_matches. }
  destruct Hcls as (r & Hr & Htext & Htag).
  (* the close tag *)
  assert (Hclose : isNextCloseTag (x :: nm)
                     {| source := skipn (length (te_text r)) R |}
                   = Ok (true, {| source := post |})).
  { rewrite Htext. unfold R. rewrite skipn_app, skipn_all, Nat.sub_diag.
    cbn [skipn app].
    destruct (isNextCloseTag_cases (x :: nm) {| source := C |})
      as [Hc|Hc Hg|closeTag rest Hc Hg Hu]; cbn [source] in *;
      change (drop_spaces C) with C in *.
    - exfalso. apply Hc. unfold C, close_tag_name.
      change (lt_sign 60%N && slash 47%N) with true. cbn [andb].
      rewrite Hx. f_equal. f_equal.
      apply take_while_app; [|reflexivity].
      apply forallb_forall. intros y Hy. apply alnum_name_char.
      rewrite forallb_forall in Hn. auto.
    - exfalso. revert Hg. unfold C.
      change (60%N :: 47%N :: x :: nm ++ 62%N :: post)
        with ((60%N :: 47%N :: x :: nm) ++ 62%N :: post).
      rewrite gt_before_line_end_app; [discriminate|]. exact Hd2.
    - revert Hu. unfold C.
      change (60%N :: 47%N :: x :: nm ++ 62%N :: post)
        with ((60%N :: 47%N :: x :: nm) ++ 62%N :: post).
      rewrite upto_first_app.
      + now intros [= <- <-].
      + intros [E|[E|[E|E]]]; try discriminate; [|tauto].
        subst x. discriminate Gx. }
  (* the whole *)
  cbn [parseNode]. unfold parseNodeBody, bind at 1.
  rewrite Hf, Hname, Hsc, Hprops. cbn [isSelfClosing tagName].
  unfold bind. rewrite HdR.
  rewrite (@whileLoop_text_then_close (parseNode fuel) (x :: nm) 30
             {| count := 0; max := 30 |} [] R r post HdR Hr);
    [|rewrite Htext; discriminate | assumption | assumption].
  unfold ret. cbn [set_children app]. now rewrite Htext.
Qed.

Lemma parseNode_element_with_text_witness :
  parseNode 1
    {| source := lit "<" ++ lit "h1" ++ lit ">" ++ lit "Hello, world"
                 ++ lit "</" ++ lit "h1" ++ lit ">" ++ lit " more" |}
  = Ok (Some (ElementNode (lit "<" ++ lit "h1" ++ lit ">") (lit "h1")
                false [] [TextNode (lit "Hello, world")]),
        {| source := lit " more" |}).
Proof.
  apply (@parseNode_element_with_text 0 (lit "h1") (lit "Hello, world")
           (lit " more")); try reflexivity; try discriminate.
  vm_compute. intuition discriminate.
Defined.

(** X15.  [parseNode] ends on every source: the guard on the counter ends
    each loop and each nested call starts on a shorter source, so a
    nesting depth above the length of the source is never used up; the
    call returns or throws, and its outcome is that of [parse] whatever
    larger depth is allowed. *)
Theorem parseNode_terminates fuel ctx :
  length (source ctx) < fuel ->
  parseNode fuel ctx <> Fuel /\
  parseNode fuel ctx = parse (source ctx) /\
  parseNode (S fuel) ctx = parseNode fuel ctx.
Proof.
  intros H. destruct ctx as [s]. cbn [source] in *.
  pose proof (@parseNode_behaves fuel {| source := s |}) as Hb.
  unfold len in Hb. cbn [source] in Hb. specialize (Hb H).
  assert (Hf : parseNode fuel {| source := s |} <> Fuel).
  { destruct (parseNode fuel {| source := s |}) as [[? ?]| |];
      [discriminate..|tauto]. }
  split; [exact Hf|]. split.
  - now apply parseNode_fuel_irrelevant.
  - now apply parseNode_mono.
Qed.

Lemma parseNode_terminates_witness :
  parseNode 20 {| source := lit "<a><b>x</b></a>" |} <> Fuel /\
  parseNode 20 {| source := lit "<a><b>x</b></a>" |}
  = parse (lit "<a><b>x</b></a>") /\
  parseNode 21 {| source := lit "<a><b>x</b></a>" |}
  = parseNode 20 {| source := lit "<a><b>x</b></a>" |}.
Proof.
  apply (@parseNode_terminates 20 {| source := lit "<a><b>x</b></a>" |}).
  cbn. lia.
Defined.
